(** * SubdivMesh: half-edge topology, validity and interpolation cache

    A shallow embedding of [kernels/common/scene_subdiv_mesh.h].  Machine
    integers are values of [Z] with their wrap-around written out, single
    precision floats are [spec_float] values, buffers and vectors are lists
    read with [!!].  Parts of the mesh whose code lives in other files of the
    library (the half-edge record, the topology builder, the tessellation
    cache) are modelled from the specification and marked as such. *)

From Stdlib Require Import ZArith Lia Bool List.
From Stdlib Require Import Floats.SpecFloat.
From stdpp Require Import base option list sorting gmap.

Local Open Scope Z_scope.

(** ** Machine integers *)

(** [uint32_t], [uint64_t] and [size_t] (64 bits wide on the x86-64 targets
    of the library) are ranges of [Z]; every arithmetic result is reduced
    with [wrap]. *)
Definition wrap (bits x : Z) : Z := x mod 2 ^ bits.

Definition is_uint32 (x : Z) : Prop := 0 <= x < 2 ^ 32.
Definition is_uint64 (x : Z) : Prop := 0 <= x < 2 ^ 64.
Definition is_size_t (x : Z) : Prop := 0 <= x < 2 ^ 64.

Definition size_add (a b : Z) : Z := wrap 64 (a + b).
Definition size_mul (a b : Z) : Z := wrap 64 (a * b).

(** ** [SubdivMesh::Edge] *)

Module Edge.

(** start and end vertex of the edge *)
Record t : Type := Edge { v0 : Z; v1 : Z }.

(** [operator uint64_t]: a 64 bit identifier that is unique for the not
    oriented edge. *)
Definition to_uint64 (e : t) : Z :=
  let p0 := v0 e in
  let p1 := v1 e in
  let '(p0, p1) := if p0 <? p1 then (p1, p0) else (p0, p1) in
  Z.lor (wrap 64 (Z.shiftl (wrap 64 p0) 32)) (wrap 64 p1).

End Edge.

(** ** Interpolation slots *)

Definition numInterpolationSlots4 (stride : Z) : Z := size_add stride 15 / 16.
Definition numInterpolationSlots8 (stride : Z) : Z := size_add stride 31 / 32.

(** [avx] is the build configuration ([__AVX__] defined or not); this is
    the local [slots] of [interpolationSlot]. *)
Definition slotsPerPrimitive (avx : bool) (stride : Z) : Z :=
  if avx then numInterpolationSlots8 stride else numInterpolationSlots4 stride.

(** The [assert] is kept: a slot outside the slot count has no result. *)
Definition interpolationSlot (avx : bool) (prim slot stride : Z) : option Z :=
  let slots := slotsPerPrimitive avx stride in
  if slot <? slots then Some (size_add (size_mul slots prim) slot) else None.

(** Ceiling of a quotient of non-negative integers. *)
Definition ceil_div (a b : Z) : Z := a / b + (if a mod b =? 0 then 0 else 1).

(** ** Single precision floats *)

Module Float32.

(** A [float] is a binary32 value: a [spec_float] that is [valid_binary]
    for a 24 bit mantissa and [emax = 128]. *)
Definition t : Type := spec_float.
Definition prec : Z := 24.
Definition emax : Z := 128.
Definition is_float32 (x : t) : bool := valid_binary prec emax x.

(** The literals used by the mesh. *)
Definition one : t := S754_finite false 8388608 (-23).          (* 1.0f *)
Definition c4096 : t := S754_finite false 8388608 (-11).        (* 4096.0f *)
Definition minus_one : t := S754_finite true 8388608 (-23).     (* -1.0f *)
Definition c5000 : t := S754_finite false 10240000 (-11).       (* 5000.0f *)
Definition c7_5 : t := S754_finite false 15728640 (-21).        (* 7.5f *)

Definition ltb (x y : t) : bool := SFltb x y.
Definition leb (x y : t) : bool := SFleb x y.

(** Modelled from the spec: [min], [max] and [clamp] come from the math
    header of the library, which is not part of this file; the spec only
    says that a level is clamped to the closed range of the two bounds.
    They are written with the comparison [<] alone, so that a value that
    compares with nothing (a NaN) falls on a bound. *)
Definition min (a b : t) : t := if ltb a b then a else b.
Definition max (a b : t) : t := if ltb a b then b else a.
Definition clamp (x lower upper : t) : t := max (min x upper) lower.

End Float32.

Abbreviation float32 := Float32.t.

(** ** Half edges *)

Module HalfEdge.

(** Modelled from the spec: the half-edge record is declared in
    subdiv/half_edge.h, which is not part of this file.  The spec lists its
    attributes: origin vertex id, owning face id, index of the next and of
    the previous half-edge of the face cycle, index of the opposite
    half-edge or a sentinel ([None]) for a boundary edge, an edge level and
    crease weights.  Half-edges live in one arena and refer to each other
    by position. *)
Record t : Type := mk {
  vtx_index : Z;
  face : nat;
  next : nat;
  prev : nat;
  opposite : option nat;
  edge_level : option float32;
  edge_crease_weight : option float32;
  vertex_crease_weight : option float32
}.

Definition hasOpposite (e : t) : bool :=
  match opposite e with Some _ => true | None => false end.

(** Position [q] of the arena [hes] holds a boundary half-edge: one whose
    opposite is the sentinel. *)
Definition isBorder (hes : list t) (q : nat) : Prop :=
  exists e, hes !! q = Some e /\ opposite e = None.

(** Following [next] [n] times in the arena [hes], starting at [p]. *)
Fixpoint walk (hes : list t) (n : nat) (p : nat) : option nat :=
  match n with
  | O => Some p
  | S n' => match hes !! p with
            | Some e => walk hes n' (next e)
            | None => None
            end
  end.

Fixpoint faceHasBorder_loop (fuel : nat) (hes : list t) (this p : nat)
  : option bool :=
  match fuel with
  | O => None
  | S fuel' =>
    match hes !! p with
    | None => None
    | Some e =>
      if hasOpposite e then
        if Nat.eqb (next e) this then Some false
        else faceHasBorder_loop fuel' hes this (next e)
      else Some true
    end
  end.

(** Modelled from the spec: [faceHasBorder] belongs to the absent
    half-edge header.  A face touches a boundary when a half-edge of its
    cycle has no twin; the cycle is walked along [next] from [this] until
    it comes back to [this].  A cycle of the arena has at most as many
    members as the arena, so that many rounds are enough; [None] is a read
    outside the arena or a walk that never comes back. *)
Definition faceHasBorder (hes : list t) (this : nat) : option bool :=
  faceHasBorder_loop (length hes) hes this this.

End HalfEdge.

(** structure used to sort half edges by their key *)
Module KeyHalfEdge.

Record t : Type := mk { key : Z; edge : nat }.

Definition to_uint64 (e : t) : Z := key e.
Definition lt (e0 e1 : t) : bool := key e0 <? key e1.

End KeyHalfEdge.

(** ** The mesh *)

(** Modelled from the spec: [RTCBoundaryMode] is declared in the API header,
    which is not part of this file.  The spec names a mode that allows no
    boundary faces, the one [valid] tests for, and a mode that permits
    boundaries. *)
Inductive RTCBoundaryMode : Type :=
| RTC_BOUNDARY_NONE
| RTC_BOUNDARY_PERMITTED.

#[global] Instance RTCBoundaryMode_eq_dec : EqDecision RTCBoundaryMode.
Proof. solve_decision. Defined.

Definition Vec3fa : Type := float32 * float32 * float32.

(** One vertex buffer per time step: its byte stride and its positions. *)
Record VertexBuffer : Type := mkVertexBuffer {
  vb_stride : Z;
  vb_data : list Vec3fa
}.

Section Mesh.

(** Evaluated patch data is opaque: it is produced by the evaluation
    engine and only stored and handed out here. *)
Context {PatchData : Type}.

(** Modelled from the spec: [SharedLazyTessellationCache::CacheEntry] is
    declared in subdiv/tessellation_cache.h, which is not part of this
    file.  An entry holds a generation tag and a reference to evaluated
    patch data ([None] before the first evaluation). *)
Record CacheEntry : Type := mkCacheEntry {
  tag : nat;
  data : option PatchData
}.

(** all buffers in this section are provided by the application *)
Record Buffers : Type := mkBuffers {
  faceVertices : list Z;
  vertexIndices : list Z;
  vertices : list VertexBuffer;
  edge_creases : list Edge.t;
  edge_crease_weights : list float32;
  vertex_creases : list Z;
  vertex_crease_weights : list float32;
  levels : option (list float32);
  tessellationRate : float32;
  holes : list Z
}.

(** all data in this section is generated by the
    initializeHalfEdgeStructures function *)
Record Topology : Type := mkTopology {
  numHalfEdges : Z;
  faceStartEdge : list Z;
  halfEdges : list HalfEdge.t;
  holeSet : gset Z;
  invalid_face : list Z
}.

(** data only required during construction of the half edge structure *)
Record Scratch : Type := mkScratch {
  halfEdges0 : list KeyHalfEdge.t;
  halfEdges1 : list KeyHalfEdge.t;
  vertexCreaseMap : gmap Z float32;
  edgeCreaseMap : gmap Z float32
}.

(** The mesh.  [numTimeSteps] comes from the geometry base class;
    [levelUpdate] flags that only the edge levels have changed and the mesh
    has no creases; [vertex_buffer_tags] is the tag table of the
    interpolation cache, one row per time step. *)
Record SubdivMesh : Type := mkSubdivMesh {
  numFaces : Z;
  numEdges : Z;
  numVertices : Z;
  numTimeSteps : Z;
  boundary : RTCBoundaryMode;
  buffers : Buffers;
  topology : Topology;
  levelUpdate : bool;
  vertex_buffer_tags : list (list CacheEntry);
  scratch : Scratch
}.

(** *** Accessors of the header *)

Definition size (m : SubdivMesh) : Z := numFaces m.

(** [&halfEdges[faceStartEdge[f]]]: a pointer into the arena. *)
Definition getHalfEdge (m : SubdivMesh) (f : Z) : option nat :=
  match faceStartEdge (topology m) !! Z.to_nat f with
  | Some s => Some (Z.to_nat s)
  | None => None
  end.

(** [invalid_face[i*numTimeSteps+j]] *)
Definition invalidFace (m : SubdivMesh) (i j : Z) : option Z :=
  invalid_face (topology m)
    !! Z.to_nat (size_add (size_mul i (numTimeSteps m)) j).

Definition faceBorderTest (m : SubdivMesh) (i : Z) : option bool :=
  match getHalfEdge m i with
  | Some p => HalfEdge.faceHasBorder (halfEdges (topology m)) p
  | None => None
  end.

Definition notInvalid (c : option Z) : option bool :=
  match c with Some c => Some (c =? 0) | None => None end.

(** check if the i'th primitive is valid *)
Definition valid (m : SubdivMesh) (i : Z) : option bool :=
  if decide (boundary m = RTC_BOUNDARY_NONE) then
    match faceBorderTest m i with
    | Some true => Some false
    | Some false => notInvalid (invalidFace m i 0)
    | None => None
    end
  else notInvalid (invalidFace m i 0).

(** check if the i'th primitive is valid for the j'th time range *)
Definition valid_t (m : SubdivMesh) (i j : Z) : option bool :=
  if decide (boundary m = RTC_BOUNDARY_NONE) then
    match faceBorderTest m i with
    | Some true => Some false
    | Some false => notInvalid (invalidFace m i j)
    | None => None
    end
  else notInvalid (invalidFace m i j).

Definition checkLevelUpdate (m : SubdivMesh) : bool := levelUpdate m.

(** returns tessellation level of edge; [None] is a read past the end of
    the level buffer. *)
Definition getEdgeLevel (m : SubdivMesh) (i : Z) : option float32 :=
  match levels (buffers m) with
  | Some lv =>
    match lv !! Z.to_nat i with
    | Some x => Some (Float32.clamp x Float32.one Float32.c4096)
    | None => None
    end
  | None =>
    Some (Float32.clamp (tessellationRate (buffers m)) Float32.one Float32.c4096)
  end.

End Mesh.

Arguments CacheEntry : clear implicits.
Arguments SubdivMesh : clear implicits.

(** ** Topology construction *)

(** [calculateHalfEdges] is only declared in the header; its body is not
    part of this file.  The definitions of this part follow the construction
    steps of the specification one by one. *)

(** Modelled from the spec: the one hard construction error, buffers whose
    shapes do not fit each other. *)
Inductive BuildError : Type := BufferShapeMismatch.

Inductive result (A : Type) : Type :=
| Ok (a : A)
| Err (e : BuildError).

Arguments Ok {A} a.
Arguments Err {A} e.

(** Modelled from the spec: step 1 of the absent builder, the prefix sum of
    the per-face vertex counts. *)
Definition faceCounts (b : Buffers) : list nat := Z.to_nat <$> faceVertices b.

Fixpoint prefixSums (start : nat) (counts : list nat) : list nat :=
  match counts with
  | [] => []
  | k :: ks => start :: prefixSums (start + k) ks
  end.

(** Modelled from the spec: step 2 of the absent builder, one half-edge per
    (face, local vertex) pair, linked along the face's local cycle with
    wrap-around. *)
Definition faceCycle (f start : nat) (vs : list Z) : list HalfEdge.t :=
  imap (fun j v =>
          HalfEdge.mk v f
            (start + (j + 1) mod length vs)%nat
            (start + (j + length vs - 1) mod length vs)%nat
            None None None None) vs.

Fixpoint allocHalfEdges (f start : nat) (counts : list nat) (vidx : list Z)
  : list HalfEdge.t :=
  match counts with
  | [] => []
  | k :: ks =>
    faceCycle f start (take k vidx)
      ++ allocHalfEdges (S f) (start + k) ks (drop k vidx)
  end.

(** Modelled from the spec: step 3 of the absent builder, the unordered key
    of a half-edge, from its origin and the origin of its [next]; then the
    keyed list and its stable ascending sort. *)
Definition edgeKey (hes : list HalfEdge.t) (i : nat) : option Z :=
  match hes !! i with
  | Some e =>
    match hes !! HalfEdge.next e with
    | Some n =>
      Some (Edge.to_uint64 (Edge.Edge (HalfEdge.vtx_index e) (HalfEdge.vtx_index n)))
    | None => None
    end
  | None => None
  end.

(** The number of half-edges of the arena that share the key [K]. *)
Definition keyCount (hes : list HalfEdge.t) (K : Z) : nat :=
  length (filter (fun g => edgeKey hes g = Some K) (seq 0 (length hes))).

Definition keyHalfEdges (hes : list HalfEdge.t) : list KeyHalfEdge.t :=
  omap (fun i => match edgeKey hes i with
                 | Some k => Some (KeyHalfEdge.mk k i)
                 | None => None
                 end) (seq 0 (length hes)).

Fixpoint insertKey (x : KeyHalfEdge.t) (l : list KeyHalfEdge.t)
  : list KeyHalfEdge.t :=
  match l with
  | [] => [x]
  | y :: l' => if KeyHalfEdge.lt y x then y :: insertKey x l' else x :: y :: l'
  end.

Definition sortKeys (l : list KeyHalfEdge.t) : list KeyHalfEdge.t :=
  foldr insertKey [] l.

(** Modelled from the spec: step 4 of the absent builder, the scan of the
    sorted list for runs of equal keys. *)
Fixpoint runs (l : list KeyHalfEdge.t) : list (list KeyHalfEdge.t) :=
  match l with
  | [] => []
  | x :: l' =>
    match runs l' with
    | (y :: r) :: rs =>
      if KeyHalfEdge.key x =? KeyHalfEdge.key y
      then (x :: y :: r) :: rs
      else [x] :: (y :: r) :: rs
    | rs => [x] :: rs
    end
  end.

(** What the scan yields on a sorted list: no run is empty, a run has one
    key, and the keys of the runs increase strictly. *)
Definition runsOrdered (rs : list (list KeyHalfEdge.t)) : Prop :=
  StronglySorted
    (fun r r' => forall a b, a ∈ r -> b ∈ r' -> KeyHalfEdge.key a < KeyHalfEdge.key b) rs
  /\ Forall (fun r => r <> []
                     /\ forall a b, a ∈ r -> b ∈ r ->
                                    KeyHalfEdge.key a = KeyHalfEdge.key b) rs.

(** Modelled from the spec: a run of two pairs its half-edges as mutual
    opposites; every other half-edge keeps the sentinel. *)
Definition linkRun (r : list KeyHalfEdge.t) (opp : gmap nat nat) : gmap nat nat :=
  match r with
  | [a; b] =>
    <[KeyHalfEdge.edge a := KeyHalfEdge.edge b]>
      (<[KeyHalfEdge.edge b := KeyHalfEdge.edge a]> opp)
  | _ => opp
  end.

Definition oppositeMap (rs : list (list KeyHalfEdge.t)) : gmap nat nat :=
  foldr linkRun ∅ rs.

(** Modelled from the spec: a run of more than two is a non-manifold edge;
    the faces owning its half-edges are collected to be marked invalid. *)
Definition nonManifoldEdges (rs : list (list KeyHalfEdge.t)) : list nat :=
  mjoin ((fun r => if (2 <? length r)%nat then KeyHalfEdge.edge <$> r else []) <$> rs).

Definition nonManifoldFaces (hes : list HalfEdge.t) (rs : list (list KeyHalfEdge.t))
  : gset nat :=
  list_to_set (omap (fun i => HalfEdge.face <$> hes !! i) (nonManifoldEdges rs)).

(** Modelled from the spec: step 5 of the absent builder, the crease maps
    (later entries overwrite earlier ones) and the hole set. *)
Definition insertAll (kvs : list (Z * float32)) : gmap Z float32 :=
  foldl (fun m kv => <[kv.1 := kv.2]> m) ∅ kvs.

Definition buildVertexCreaseMap (b : Buffers) : gmap Z float32 :=
  insertAll (zip (vertex_creases b) (vertex_crease_weights b)).

Definition buildEdgeCreaseMap (b : Buffers) : gmap Z float32 :=
  insertAll (zip (Edge.to_uint64 <$> edge_creases b) (edge_crease_weights b)).

Definition buildHoleSet (b : Buffers) : gset Z := list_to_set (holes b).

(** Modelled from the spec: the half-edges receive their opposite, their
    level ([lvl] is [getEdgeLevel] of the mesh) and their crease weights. *)
Definition finishHalfEdges (lvl : nat -> option float32) (opp : gmap nat nat)
  (em vm : gmap Z float32) (hes : list HalfEdge.t) : list HalfEdge.t :=
  imap (fun i e =>
          HalfEdge.mk (HalfEdge.vtx_index e) (HalfEdge.face e)
            (HalfEdge.next e) (HalfEdge.prev e)
            (opp !! i)
            (lvl i)
            (match edgeKey hes i with Some k => em !! k | None => None end)
            (vm !! HalfEdge.vtx_index e)) hes.

(** Modelled from the spec: step 6 of the absent builder, the conditions
    that make a face invalid: a hole, a degenerate vertex cycle, a vertex
    index out of range, a non-manifold edge, or a boundary half-edge while
    the boundary mode allows none. *)
Definition degenerate (vs : list Z) : bool :=
  (length (remove_dups vs) <? 3)%nat || negb (bool_decide (NoDup vs)).

Definition outOfRange (nverts : Z) (vs : list Z) : bool :=
  existsb (fun v => (v <? 0) || (nverts <=? v)) vs.

Definition touchesBoundary (hes : list HalfEdge.t) (start k : nat) : bool :=
  existsb (fun e => negb (HalfEdge.hasOpposite e)) (take k (drop start hes)).

Definition faceInvalid (mode : RTCBoundaryMode) (nverts : Z) (b : Buffers)
  (hs : gset Z) (nm : gset nat) (hes : list HalfEdge.t) (f start k : nat) : bool :=
  bool_decide (Z.of_nat f ∈ hs)
  || degenerate (take k (drop start (vertexIndices b)))
  || outOfRange nverts (take k (drop start (vertexIndices b)))
  || bool_decide (f ∈ nm)
  || (bool_decide (mode = RTC_BOUNDARY_NONE) && touchesBoundary hes start k).

Definition faceFlag (mode : RTCBoundaryMode) (nverts : Z) (b : Buffers)
  (hs : gset Z) (nm : gset nat) (hes : list HalfEdge.t)
  (faces : list (nat * nat)) (f : nat) : Z :=
  match faces !! f with
  | Some (start, k) =>
    if faceInvalid mode nverts b hs nm hes f start k then 1 else 0
  | None => 1
  end.

(** Modelled from the spec: one flag per (face, timestep) pair, laid out
    as [invalidFace] reads it. *)
Definition buildInvalidFace (flag : nat -> Z) (nfaces ntime : nat) : list Z :=
  (fun idx => flag (idx / ntime)%nat) <$> seq 0 (nfaces * ntime).

(** Modelled from the spec: the shapes the input buffers must have; the
    vertex-index array holds the sum of the per-face counts, a weight
    belongs to every crease, a level to every half-edge. *)
Definition wellShaped (nfaces : Z) (b : Buffers) : bool :=
  (length (faceVertices b) =? Z.to_nat nfaces)%nat
  && (length (vertexIndices b) =? sum_list (faceCounts b))%nat
  && (length (edge_crease_weights b) =? length (edge_creases b))%nat
  && (length (vertex_crease_weights b) =? length (vertex_creases b))%nat
  && match levels b with
     | Some lv => (length lv =? sum_list (faceCounts b))%nat
     | None => true
     end.

Section Builder.

Context {PatchData : Type}.

(** Modelled from the spec: the steps of the absent builder put together. *)
Definition buildTopology (m : SubdivMesh PatchData) : Topology * Scratch :=
  let b := buffers m in
  let counts := faceCounts b in
  let starts := prefixSums 0 counts in
  let hes0 := allocHalfEdges 0 0 counts (vertexIndices b) in
  let keyed := keyHalfEdges hes0 in
  let sorted := sortKeys keyed in
  let rs := runs sorted in
  let vm := buildVertexCreaseMap b in
  let em := buildEdgeCreaseMap b in
  let hs := buildHoleSet b in
  let lvl := fun i => getEdgeLevel m (Z.of_nat i) in
  let hes := finishHalfEdges lvl (oppositeMap rs) em vm hes0 in
  let nm := nonManifoldFaces hes rs in
  let flag :=
    faceFlag (boundary m) (numVertices m) b hs nm hes (zip starts counts) in
  (mkTopology
     (Z.of_nat (length hes))
     ((fun s => wrap 32 (Z.of_nat s)) <$> starts)
     hes
     hs
     (buildInvalidFace flag (length counts) (Z.to_nat (numTimeSteps m))),
   mkScratch keyed sorted vm em).

(** Modelled from the spec: [calculateHalfEdges], declared in the header
    without its body, rebuilds topology and scratch data and leaves the
    rest of the mesh alone; mismatching buffer shapes are escalated. *)
Definition calculateHalfEdges (m : SubdivMesh PatchData)
  : result (SubdivMesh PatchData) :=
  if wellShaped (numFaces m) (buffers m) then
    let '(t, s) := buildTopology m in
    Ok (mkSubdivMesh (numFaces m) (numEdges m) (numVertices m) (numTimeSteps m)
          (boundary m) (buffers m) t false (vertex_buffer_tags m) s)
  else Err BufferShapeMismatch.

End Builder.

(** ** The lazy evaluation cache *)

(** Modelled from the spec: [SharedLazyTessellationCache] is declared in
    subdiv/tessellation_cache.h, which is not part of this file.  The cache
    service owns the generation counters; [recomputations] counts the calls
    made to the evaluation engine, so that the cost of a fetch can be
    stated. *)
Record SharedLazyTessellationCache : Type := mkCache {
  levelGeneration : nat;
  topologyGeneration : nat;
  recomputations : nat
}.

Section Cache.

Context {PatchData : Type}.

(** The build configuration and the external evaluation engine: from the
    current topology and buffers it evaluates one (primitive, timestep,
    slot), or fails. *)
Variable avx : bool.
Variable engine : Topology -> Buffers -> Z -> Z -> Z -> option PatchData.

Record MeshState : Type := mkState {
  cache : SharedLazyTessellationCache;
  mesh : SubdivMesh PatchData
}.

(** Modelled from the spec: the entry of a key is found in row [timestep]
    of the tag table, at the linear index of slot [slot] of primitive [prim]
    for the stride of that timestep's vertex buffer. *)
Definition entryIndex (m : SubdivMesh PatchData) (prim timestep slot : Z)
  : option nat :=
  match vertices (buffers m) !! Z.to_nat timestep with
  | Some vb =>
    match interpolationSlot avx prim slot (vb_stride vb) with
    | Some idx => Some (Z.to_nat idx)
    | None => None
    end
  | None => None
  end.

Definition lookupEntry (m : SubdivMesh PatchData) (prim timestep slot : Z)
  : option (CacheEntry PatchData) :=
  match entryIndex m prim timestep slot with
  | Some idx =>
    match vertex_buffer_tags m !! Z.to_nat timestep with
    | Some row => row !! idx
    | None => None
    end
  | None => None
  end.

Definition storeEntry (m : SubdivMesh PatchData) (timestep : Z) (idx : nat)
  (e : CacheEntry PatchData) : SubdivMesh PatchData :=
  mkSubdivMesh (numFaces m) (numEdges m) (numVertices m) (numTimeSteps m)
    (boundary m) (buffers m) (topology m) (levelUpdate m)
    (alter (fun row => <[idx := e]> row) (Z.to_nat timestep) (vertex_buffer_tags m))
    (scratch m).

Definition countRecomputation (c : SharedLazyTessellationCache)
  : SharedLazyTessellationCache :=
  mkCache (levelGeneration c) (topologyGeneration c) (S (recomputations c)).

(** Modelled from the spec: [fetch] of the absent cache.  A hit hands out
    the stored data and changes nothing; a miss calls the engine once and,
    when it produced data, stores it under the current generation.  When
    the engine fails the entry stays stale.  The outer [None] is a key
    without an entry. *)
Definition fetch (st : MeshState) (prim timestep slot : Z)
  : option (option PatchData * MeshState) :=
  match entryIndex (mesh st) prim timestep slot,
        lookupEntry (mesh st) prim timestep slot with
  | Some idx, Some e =>
    if Nat.eqb (tag e) (levelGeneration (cache st)) then Some (data e, st)
    else
      match engine (topology (mesh st)) (buffers (mesh st)) prim timestep slot with
      | Some d =>
        Some (Some d,
              mkState (countRecomputation (cache st))
                (storeEntry (mesh st) timestep idx
                   (mkCacheEntry (levelGeneration (cache st)) (Some d))))
      | None => Some (None, mkState (countRecomputation (cache st)) (mesh st))
      end
  | _, _ => None
  end.


Definition refreshEdgeLevel (lvl : option float32) (e : HalfEdge.t) : HalfEdge.t :=
  HalfEdge.mk (HalfEdge.vtx_index e) (HalfEdge.face e) (HalfEdge.next e)
    (HalfEdge.prev e) (HalfEdge.opposite e) lvl
    (HalfEdge.edge_crease_weight e) (HalfEdge.vertex_crease_weight e).

(** Modelled from the spec: [updateHalfEdges] is declared in the header
    (it "updates half edges when recalculation is not necessary") without
    its body.  The levels live on the half-edges, so the update that needs
    no recalculation stores the current [getEdgeLevel] on every half-edge
    and keeps everything else of the topology. *)
Definition updateHalfEdges (m : SubdivMesh PatchData) : SubdivMesh PatchData :=
  mkSubdivMesh (numFaces m) (numEdges m) (numVertices m) (numTimeSteps m)
    (boundary m) (buffers m)
    (mkTopology (numHalfEdges (topology m)) (faceStartEdge (topology m))
       (imap (fun i e => refreshEdgeLevel (getEdgeLevel m (Z.of_nat i)) e)
          (halfEdges (topology m)))
       (holeSet (topology m)) (invalid_face (topology m)))
    (levelUpdate m) (vertex_buffer_tags m) (scratch m).

(** Modelled from the spec: [invalidateLevelsOnly] of the absent cache
    advances the level generation; the half-edges are not recalculated but
    updated by [updateHalfEdges]. *)
Definition invalidateLevelsOnly (st : MeshState) : MeshState :=
  mkState
    (mkCache (S (levelGeneration (cache st))) (topologyGeneration (cache st))
       (recomputations (cache st)))
    (updateHalfEdges (mesh st)).

(** Modelled from the spec: [invalidateTopology] of the absent cache
    advances both generations and has the builder run again before any
    later fetch. *)
Definition invalidateTopology (st : MeshState) : result MeshState :=
  match calculateHalfEdges (mesh st) with
  | Ok m' =>
    Ok (mkState
          (mkCache (S (levelGeneration (cache st)))
             (S (topologyGeneration (cache st))) (recomputations (cache st)))
          m')
  | Err e => Err e
  end.

Definition clearLevelUpdate (m : SubdivMesh PatchData) : SubdivMesh PatchData :=
  mkSubdivMesh (numFaces m) (numEdges m) (numVertices m) (numTimeSteps m)
    (boundary m) (buffers m) (topology m) false (vertex_buffer_tags m) (scratch m).

(** Modelled from the spec: the update detector.  A pure level update
    (the [levelUpdate] flag, consumed here) only invalidates the cache,
    anything else invalidates the topology. *)
Definition update (st : MeshState) : result MeshState :=
  if checkLevelUpdate (mesh st) then
    let st' := invalidateLevelsOnly st in
    Ok (mkState (cache st') (clearLevelUpdate (mesh st')))
  else invalidateTopology st.

End Cache.

Arguments MeshState : clear implicits.

(** ** Scenarios of the specification *)

Definition scenarioBuffers (counts indices holeIds : list Z) : Buffers :=
  mkBuffers counts indices [mkVertexBuffer 16 []] [] [] [] [] None
    Float32.c7_5 holeIds.

(** A mesh as it is before its first build: one time step, no topology. *)
Definition scenarioMesh (nfaces nverts : Z) (mode : RTCBoundaryMode)
  (b : Buffers) : SubdivMesh unit :=
  mkSubdivMesh nfaces 0 nverts 1 mode b (mkTopology 0 [] [] ∅ []) false
    [replicate (Z.to_nat nfaces) (mkCacheEntry 0%nat None)]
    (mkScratch [] [] ∅ ∅).

(** Two triangles {0,1,2} and {1,2,3} sharing an edge. *)
Definition twoTriangles (mode : RTCBoundaryMode) : SubdivMesh unit :=
  scenarioMesh 2 4 mode (scenarioBuffers [3; 3] [0; 1; 2; 1; 2; 3] []).

(** Three triangles that all use the edge (0,1). *)
Definition threeOnOneEdge : SubdivMesh unit :=
  scenarioMesh 3 5 RTC_BOUNDARY_PERMITTED
    (scenarioBuffers [3; 3; 3] [0; 1; 2; 0; 1; 3; 0; 1; 4] []).

(** A single quad whose face id is in the hole buffer. *)
Definition quadHole : SubdivMesh unit :=
  scenarioMesh 1 4 RTC_BOUNDARY_PERMITTED
    (scenarioBuffers [4] [0; 1; 2; 3] [0]).

(** A cache at generation 1 over a scenario mesh, whose entries carry the
    tag 0 and are therefore stale, and an engine that always succeeds. *)
Definition scenarioState (m : SubdivMesh unit) : MeshState unit :=
  mkState (mkCache 1 1 0) m.

Definition scenarioEngine (t : Topology) (b : Buffers) (prim timestep slot : Z)
  : option unit := Some tt.

(** A scenario mesh after its build. *)
Definition scenarioBuilt (m : SubdivMesh unit) : SubdivMesh unit :=
  match calculateHalfEdges m with
  | Ok m' => m'
  | Err _ => m
  end.


(** An engine that cannot produce data. *)
Definition scenarioFailingEngine (t : Topology) (b : Buffers)
  (prim timestep slot : Z) : option unit := None.

(** A triangle with a level buffer holding -1, 5000 and 7.5. *)
Definition levelledTriangle : SubdivMesh unit :=
  scenarioMesh 1 3 RTC_BOUNDARY_PERMITTED
    (mkBuffers [3] [0; 1; 2] [mkVertexBuffer 16 []] [] [] [] []
       (Some [Float32.minus_one; Float32.c5000; Float32.c7_5]) Float32.one []).



(** Three triangles on the edge (0,1) and a triangle {5,6,7} of its own. *)
Definition fanAndTriangle : SubdivMesh unit :=
  scenarioMesh 4 8 RTC_BOUNDARY_PERMITTED
    (scenarioBuffers [3; 3; 3; 3] [0; 1; 2; 0; 1; 3; 0; 1; 4; 5; 6; 7] []).

(** ** Writing a validity flag *)

(** The conversion of an integer to [char] (8 bits, signed on the x86
    targets of the library). *)
Definition to_char (c : Z) : Z := (c + 128) mod 256 - 128.

Definition is_char (c : Z) : Prop := -128 <= c < 128.

Section MeshWrites.

Context {PatchData : Type}.

(** The non-const [invalidFace(i, j)] hands out a [char&] into
    [invalid_face]; this is the assignment [invalidFace(i, j) = c] through
    it, which converts [c] to [char].  [None] is a write outside the
    table. *)
Definition setInvalidFace (m : SubdivMesh PatchData) (i j c : Z)
  : option (SubdivMesh PatchData) :=
  let idx := Z.to_nat (size_add (size_mul i (numTimeSteps m)) j) in
  if (idx <? length (invalid_face (topology m)))%nat then
    Some (mkSubdivMesh (numFaces m) (numEdges m) (numVertices m)
            (numTimeSteps m) (boundary m) (buffers m)
            (mkTopology (numHalfEdges (topology m)) (faceStartEdge (topology m))
               (halfEdges (topology m)) (holeSet (topology m))
               (<[idx := to_char c]> (invalid_face (topology m))))
            (levelUpdate m) (vertex_buffer_tags m) (scratch m))
  else None.

End MeshWrites.

(** A mesh of two faces and two time steps with a flag table of four
    clear flags. *)
Definition scenarioFlags : SubdivMesh unit :=
  mkSubdivMesh 2 0 4 2 RTC_BOUNDARY_PERMITTED
    (scenarioBuffers [3; 3] [0; 1; 2; 1; 2; 3] [])
    (mkTopology 0 [] [] ∅ [0; 0; 0; 0]) false [] (mkScratch [] [] ∅ ∅).

(** * Properties *)

Section EdgeKey.

Lemma lor_shiftl_32 (hi lo : Z) :
  0 <= lo < 2 ^ 32 -> Z.lor (Z.shiftl hi 32) lo = hi * 2 ^ 32 + lo.
Proof.
  intros Hlo.
  rewrite Z.shiftl_mul_pow2 by lia.
  rewrite <- Z.lxor_lor.
  - rewrite <- Z.add_nocarry_lxor; [reflexivity|].
    apply Z.bits_inj'; intros n Hn.
    rewrite Z.land_spec, Z.bits_0.
    destruct (Z.lt_ge_cases n 32).
    + rewrite Z.mul_pow2_bits_low by lia. reflexivity.
    + rewrite (Z.bits_above_log2 lo n), andb_false_r; [reflexivity|lia|].
      destruct (Z.eq_dec lo 0) as [->|]; [simpl; lia|].
      apply Z.log2_lt_pow2; [lia|].
      apply Z.lt_le_trans with (2 ^ 32); [lia|].
      apply Z.pow_le_mono_r; lia.
  - apply Z.bits_inj'; intros n Hn.
    rewrite Z.land_spec, Z.bits_0.
    destruct (Z.lt_ge_cases n 32).
    + rewrite Z.mul_pow2_bits_low by lia. reflexivity.
    + rewrite (Z.bits_above_log2 lo n), andb_false_r; [reflexivity|lia|].
      destruct (Z.eq_dec lo 0) as [->|]; [simpl; lia|].
      apply Z.log2_lt_pow2; [lia|].
      apply Z.lt_le_trans with (2 ^ 32); [lia|].
      apply Z.pow_le_mono_r; lia.
Qed.

(** The key as arithmetic: larger id times [2^32] plus smaller id. *)
Lemma to_uint64_arith (a b : Z) :
  is_uint32 a -> is_uint32 b ->
  Edge.to_uint64 (Edge.Edge a b) = Z.max a b * 2 ^ 32 + Z.min a b.
Proof.
  unfold is_uint32, Edge.to_uint64, wrap; cbn [Edge.v0 Edge.v1].
  intros Ha Hb.
  assert (H64 : 2 ^ 64 = 2 ^ 32 * 2 ^ 32) by reflexivity.
  destruct (Z.ltb_spec a b).
  - rewrite (Z.mod_small b), (Z.mod_small a) by lia.
    rewrite Z.shiftl_mul_pow2 by lia.
    rewrite (Z.mod_small (b * 2 ^ 32)) by nia.
    rewrite <- Z.shiftl_mul_pow2 by lia.
    rewrite lor_shiftl_32 by lia. lia.
  - rewrite (Z.mod_small b), (Z.mod_small a) by lia.
    rewrite Z.shiftl_mul_pow2 by lia.
    rewrite (Z.mod_small (a * 2 ^ 32)) by nia.
    rewrite <- Z.shiftl_mul_pow2 by lia.
    rewrite lor_shiftl_32 by lia. lia.
Qed.

End EdgeKey.

Section EdgeKeyClaims.

Local Arguments Z.pow : simpl never.

Lemma to_uint64_sym (a b : Z) :
  is_uint32 a -> is_uint32 b ->
  Edge.to_uint64 (Edge.Edge a b) = Edge.to_uint64 (Edge.Edge b a).
Proof.
  intros Ha Hb. rewrite !to_uint64_arith by assumption.
  rewrite (Z.max_comm a b), (Z.min_comm a b). reflexivity.
Qed.

(** C4: for 32-bit vertex ids the key of [Edge(a, b)] is a 64-bit value
    whose high 32 bits are the larger id and whose low 32 bits are the
    smaller id; hence [Edge(a, b)] and [Edge(b, a)] have the same key. *)
Theorem edge_key_layout (a b : Z) :
  is_uint32 a -> is_uint32 b ->
  is_uint64 (Edge.to_uint64 (Edge.Edge a b))
  /\ Z.shiftr (Edge.to_uint64 (Edge.Edge a b)) 32 = Z.max a b
  /\ Z.land (Edge.to_uint64 (Edge.Edge a b)) (Z.ones 32) = Z.min a b
  /\ Edge.to_uint64 (Edge.Edge a b) = Edge.to_uint64 (Edge.Edge b a).
Proof.
  intros Ha Hb.
  pose proof (to_uint64_sym a b Ha Hb) as Hsym.
  rewrite to_uint64_arith in * by assumption.
  unfold is_uint32, is_uint64 in *.
  assert (H64 : 2 ^ 64 = 2 ^ 32 * 2 ^ 32) by reflexivity.
  assert (Hmax : 0 <= Z.max a b < 2 ^ 32) by lia.
  assert (Hmin : 0 <= Z.min a b < 2 ^ 32) by lia.
  repeat split.
  - lia.
  - nia.
  - rewrite Z.shiftr_div_pow2 by lia.
    rewrite Z.div_add_l by lia.
    rewrite Z.div_small by lia. lia.
  - rewrite Z.land_ones by lia.
    rewrite Z.add_comm, Z.mod_add by lia.
    apply Z.mod_small; lia.
  - exact Hsym.
Qed.

Lemma edge_key_layout_witness :
  is_uint32 1 /\ is_uint32 2
  /\ Z.shiftr (Edge.to_uint64 (Edge.Edge 1 2)) 32 = 2
  /\ Z.land (Edge.to_uint64 (Edge.Edge 1 2)) (Z.ones 32) = 1
  /\ Edge.to_uint64 (Edge.Edge 1 2) = Edge.to_uint64 (Edge.Edge 2 1).
Proof.
  assert (H1 : is_uint32 1) by (unfold is_uint32; lia).
  assert (H2 : is_uint32 2) by (unfold is_uint32; lia).
  destruct (edge_key_layout 1 2 H1 H2) as (_ & Hhi & Hlo & Hsym).
  split; [exact H1|]. split; [exact H2|].
  split; [exact Hhi|]. split; [exact Hlo | exact Hsym].
Defined.

(** C9: on 32-bit ids the key is injective on unordered pairs: two edges
    have the same key exactly when they have the same two end points, in
    either order. *)
Theorem edge_key_injective (a0 a1 b0 b1 : Z) :
  is_uint32 a0 -> is_uint32 a1 -> is_uint32 b0 -> is_uint32 b1 ->
  Edge.to_uint64 (Edge.Edge a0 a1) = Edge.to_uint64 (Edge.Edge b0 b1)
  <-> (a0 = b0 /\ a1 = b1) \/ (a0 = b1 /\ a1 = b0).
Proof.
  intros Ha0 Ha1 Hb0 Hb1. split.
  - intros Heq.
    rewrite !to_uint64_arith in Heq by assumption.
    unfold is_uint32 in *.
    assert (Hmax : Z.max a0 a1 = Z.max b0 b1 /\ Z.min a0 a1 = Z.min b0 b1).
    { assert (0 <= Z.min a0 a1 < 2 ^ 32) by lia.
      assert (0 <= Z.min b0 b1 < 2 ^ 32) by lia.
      assert (0 <= Z.max a0 a1) by lia.
      assert (0 <= Z.max b0 b1) by lia.
      nia. }
    lia.
  - intros [[-> ->] | [-> ->]]; [reflexivity|].
    apply to_uint64_sym; assumption.
Qed.

Lemma edge_key_injective_witness :
  is_uint32 3 /\ is_uint32 7
  /\ Edge.to_uint64 (Edge.Edge 7 3) = Edge.to_uint64 (Edge.Edge 3 7)
  /\ (Edge.to_uint64 (Edge.Edge 7 3) = Edge.to_uint64 (Edge.Edge 3 3) -> False).
Proof.
  assert (H3 : is_uint32 3) by (unfold is_uint32; lia).
  assert (H7 : is_uint32 7) by (unfold is_uint32; lia).
  split; [exact H3|]. split; [exact H7|]. split.
  - apply (edge_key_injective 7 3 3 7 H7 H3 H3 H7).
    right. split; reflexivity.
  - intros Heq. apply (edge_key_injective 7 3 3 3 H7 H3 H3 H3) in Heq.
    destruct Heq as [[Heq _]|[Heq _]]; discriminate Heq.
Defined.

End EdgeKeyClaims.

Section InterpolationSlots.

Local Arguments Z.pow : simpl never.

Lemma ceil_div_add (a b : Z) : 0 < b -> (a + (b - 1)) / b = ceil_div a b.
Proof.
  intros Hb. unfold ceil_div.
  pose proof (Z.div_mod a b ltac:(lia)) as Hdm.
  pose proof (Z.mod_pos_bound a b Hb) as Hr.
  destruct (Z.eqb_spec (a mod b) 0) as [H0|H0].
  - symmetry. rewrite Z.add_0_r.
    apply (Z.div_unique _ _ _ (b - 1)); lia.
  - symmetry.
    apply (Z.div_unique _ _ _ (a mod b - 1)); lia.
Qed.

(** [ceil_div a b] is the least [n] with [a <= b * n]. *)
Lemma ceil_div_spec (a b : Z) :
  0 < b -> b * (ceil_div a b - 1) < a <= b * ceil_div a b.
Proof.
  intros Hb. unfold ceil_div.
  pose proof (Z.div_mod a b ltac:(lia)) as Hdm.
  pose proof (Z.mod_pos_bound a b Hb) as Hr.
  destruct (Z.eqb_spec (a mod b) 0); nia.
Qed.

Lemma numInterpolationSlots4_ceil (stride : Z) :
  0 <= stride -> stride + 15 < 2 ^ 64 ->
  numInterpolationSlots4 stride = ceil_div stride 16.
Proof.
  intros H0 H1. unfold numInterpolationSlots4, size_add, wrap.
  rewrite Z.mod_small by lia.
  apply (ceil_div_add stride 16); lia.
Qed.

Lemma numInterpolationSlots8_ceil (stride : Z) :
  0 <= stride -> stride + 31 < 2 ^ 64 ->
  numInterpolationSlots8 stride = ceil_div stride 32.
Proof.
  intros H0 H1. unfold numInterpolationSlots8, size_add, wrap.
  rewrite Z.mod_small by lia.
  apply (ceil_div_add stride 32); lia.
Qed.

Lemma slotsPerPrimitive_nonneg (avx : bool) (stride : Z) :
  0 <= slotsPerPrimitive avx stride.
Proof.
  unfold slotsPerPrimitive, numInterpolationSlots8, numInterpolationSlots4,
    size_add, wrap.
  destruct avx; apply Z.div_pos; try lia; apply Z.mod_pos_bound; lia.
Qed.

Lemma interpolationSlot_wrap (avx : bool) (prim slot stride : Z) :
  slot < slotsPerPrimitive avx stride ->
  interpolationSlot avx prim slot stride
  = Some (wrap 64 (slotsPerPrimitive avx stride * prim + slot)).
Proof.
  intros Hs. unfold interpolationSlot.
  destruct (Z.ltb_spec slot (slotsPerPrimitive avx stride)); [|lia].
  unfold size_add, size_mul, wrap.
  rewrite Z.add_mod_idemp_l by lia. reflexivity.
Qed.

(** C3, as the code has it: with [size_t] arithmetic the slot count is the
    ceiling [ceil(stride / 16)] (resp. [ceil(stride / 32)]) as long as
    [stride + 15] (resp. [stride + 31]) does not wrap around, and the linear
    index of slot [slot] of primitive [prim], for a slot below the slot
    count, is [slots * prim + slot] reduced modulo [2^64], hence that very
    value whenever it fits a [size_t]. *)
Theorem interpolation_slots_amended (avx : bool) (prim slot stride : Z) :
  is_size_t stride -> is_size_t prim -> is_size_t slot ->
  (stride + 15 < 2 ^ 64 -> numInterpolationSlots4 stride = ceil_div stride 16)
  /\ (stride + 31 < 2 ^ 64 -> numInterpolationSlots8 stride = ceil_div stride 32)
  /\ (slot < slotsPerPrimitive avx stride ->
      interpolationSlot avx prim slot stride
      = Some ((slotsPerPrimitive avx stride * prim + slot) mod 2 ^ 64))
  /\ (slot < slotsPerPrimitive avx stride ->
      slotsPerPrimitive avx stride * prim + slot < 2 ^ 64 ->
      interpolationSlot avx prim slot stride
      = Some (slotsPerPrimitive avx stride * prim + slot)).
Proof.
  unfold is_size_t. intros Hst Hp Hs.
  split; [|split; [|split]].
  - intros Hno. apply numInterpolationSlots4_ceil; lia.
  - intros Hno. apply numInterpolationSlots8_ceil; lia.
  - intros Hlt. apply interpolationSlot_wrap; assumption.
  - intros Hlt Hfit. rewrite interpolationSlot_wrap by assumption.
    unfold wrap. rewrite Z.mod_small; [reflexivity|].
    pose proof (slotsPerPrimitive_nonneg avx stride). nia.
Qed.

Lemma interpolation_slots_amended_witness :
  is_size_t 40 /\ is_size_t 5 /\ is_size_t 2
  /\ numInterpolationSlots4 40 = ceil_div 40 16
  /\ interpolationSlot false 5 2 40 = Some 17.
Proof.
  assert (H40 : is_size_t 40) by (unfold is_size_t; lia).
  assert (H5 : is_size_t 5) by (unfold is_size_t; lia).
  assert (H2 : is_size_t 2) by (unfold is_size_t; lia).
  destruct (interpolation_slots_amended false 5 2 40 H40 H5 H2)
    as (Hc4 & _ & _ & Hidx).
  split; [exact H40|]. split; [exact H5|]. split; [exact H2|].
  split.
  - apply Hc4. lia.
  - apply Hidx; vm_compute; reflexivity.
Defined.

(** C3 as stated fails once the arithmetic wraps around: a stride of
    [2^64 - 1] has [2^60] sixteen-byte chunks but a slot count of [0], and
    with two slots per primitive the index of slot [0] of primitive [2^63]
    is [0], not [2 * 2^63]. *)
Lemma interpolation_slots_counterexample :
  is_size_t (2 ^ 64 - 1)
  /\ numInterpolationSlots4 (2 ^ 64 - 1) = 0
  /\ numInterpolationSlots8 (2 ^ 64 - 1) = 0
  /\ ceil_div (2 ^ 64 - 1) 16 = 2 ^ 60
  /\ ceil_div (2 ^ 64 - 1) 32 = 2 ^ 59
  /\ numInterpolationSlots4 (2 ^ 64 - 1) <> ceil_div (2 ^ 64 - 1) 16
  /\ numInterpolationSlots8 (2 ^ 64 - 1) <> ceil_div (2 ^ 64 - 1) 32
  /\ 0 < slotsPerPrimitive false 32
  /\ interpolationSlot false (2 ^ 63) 0 32 = Some 0
  /\ interpolationSlot false (2 ^ 63) 0 32
     <> Some (slotsPerPrimitive false 32 * 2 ^ 63 + 0).
Proof.
  split; [unfold is_size_t; lia|].
  repeat split; try (vm_compute; reflexivity); vm_compute; congruence.
Qed.

(** C10, as the code has it: for a fixed stride, two (primitive, slot) pairs
    with both slots below the slot count, whose indices [slots * prim + slot]
    fit a [size_t], get the same linear index only if they are the same
    pair. *)
Theorem interpolationSlot_injective_amended
  (avx : bool) (stride p p' s s' i : Z) :
  is_size_t p -> is_size_t p' -> is_size_t s -> is_size_t s' ->
  slotsPerPrimitive avx stride * p + s < 2 ^ 64 ->
  slotsPerPrimitive avx stride * p' + s' < 2 ^ 64 ->
  interpolationSlot avx p s stride = Some i ->
  interpolationSlot avx p' s' stride = Some i ->
  p = p' /\ s = s'.
Proof.
  unfold is_size_t. intros Hp Hp' Hs Hs' Hfit Hfit' H1 H2.
  assert (Hlt : s < slotsPerPrimitive avx stride).
  { unfold interpolationSlot in H1.
    destruct (Z.ltb_spec s (slotsPerPrimitive avx stride)); [assumption|discriminate]. }
  assert (Hlt' : s' < slotsPerPrimitive avx stride).
  { unfold interpolationSlot in H2.
    destruct (Z.ltb_spec s' (slotsPerPrimitive avx stride)); [assumption|discriminate]. }
  rewrite interpolationSlot_wrap in H1, H2 by assumption.
  unfold wrap in H1, H2.
  pose proof (slotsPerPrimitive_nonneg avx stride) as Hnn.
  rewrite Z.mod_small in H1 by nia.
  rewrite Z.mod_small in H2 by nia.
  assert (Heq : slotsPerPrimitive avx stride * p + s
                = slotsPerPrimitive avx stride * p' + s') by congruence.
  assert (p = p') by nia.
  subst p'. split; [reflexivity | lia].
Qed.

Lemma interpolationSlot_injective_amended_witness :
  interpolationSlot false 5 2 40 = Some 17 /\ (5 = 5 /\ 2 = 2).
Proof.
  assert (H5 : is_size_t 5) by (unfold is_size_t; lia).
  assert (H2 : is_size_t 2) by (unfold is_size_t; lia).
  split; [vm_compute; reflexivity|].
  apply (interpolationSlot_injective_amended false 40 5 5 2 2 17 H5 H5 H2 H2);
    vm_compute; reflexivity.
Defined.

(** C10 as stated fails once the index wraps around: with two slots per
    primitive (a stride of 32 without AVX, of 64 with AVX), slot [0] of
    primitive [0] and slot [0] of primitive [2^63] share the index [0]. *)
Lemma interpolationSlot_injective_counterexample :
  (0 < slotsPerPrimitive false 32
   /\ interpolationSlot false 0 0 32 = Some 0
   /\ interpolationSlot false (2 ^ 63) 0 32 = Some 0)
  /\ (0 < slotsPerPrimitive true 64
      /\ interpolationSlot true 0 0 64 = Some 0
      /\ interpolationSlot true (2 ^ 63) 0 64 = Some 0)
  /\ 0 <> 2 ^ 63
  /\ ~ (forall avx stride p p' s s' i,
          is_size_t p -> is_size_t p' -> is_size_t s -> is_size_t s' ->
          interpolationSlot avx p s stride = Some i ->
          interpolationSlot avx p' s' stride = Some i ->
          p = p' /\ s = s').
Proof.
  assert (Hz : is_size_t 0) by (unfold is_size_t; lia).
  assert (Hb : is_size_t (2 ^ 63)) by (unfold is_size_t; lia).
  split; [repeat split; vm_compute; reflexivity|].
  split; [repeat split; vm_compute; reflexivity|].
  split; [lia|].
  intros Hall.
  destruct (Hall false 32 0 (2 ^ 63) 0 0 0 Hz Hb Hz Hz) as [Hp _];
    try (vm_compute; reflexivity).
  vm_compute in Hp. discriminate.
Qed.

End InterpolationSlots.

Section TessellationLevel.

(** Comparing the other way round flips the answer; a NaN compares with
    nothing in either direction. *)
Lemma SFcompare_antisym (x y : float32) :
  SFcompare y x = option_map CompOpp (SFcompare x y).
Proof.
  destruct x as [sx|sx| |sx mx ex], y as [sy|sy| |sy my ey]; simpl;
    try reflexivity;
    try (destruct sx; reflexivity); try (destruct sy; reflexivity);
    try (destruct sx, sy; reflexivity).
  destruct sx, sy; simpl; try reflexivity.
  - rewrite (Z.compare_antisym ex ey).
    destruct (ex ?= ey); simpl; try reflexivity.
    rewrite (Pos.compare_cont_antisym mx my Eq). reflexivity.
  - rewrite (Z.compare_antisym ex ey).
    destruct (ex ?= ey); simpl; try reflexivity.
    rewrite (Pos.compare_cont_antisym mx my Eq). reflexivity.
Qed.

Lemma ltb_asym (x y : float32) :
  Float32.ltb x y = true -> Float32.ltb y x = false.
Proof.
  unfold Float32.ltb, SFltb. rewrite (SFcompare_antisym x y).
  destruct (SFcompare x y) as [[]|]; simpl; congruence.
Qed.

Lemma ltb_leb (x y : float32) :
  Float32.ltb x y = true -> Float32.leb x y = true.
Proof.
  unfold Float32.ltb, Float32.leb, SFltb, SFleb.
  destruct (SFcompare x y) as [[]|]; congruence.
Qed.

Lemma SFcompare_None (x y : float32) :
  SFcompare x y = None -> x = S754_nan \/ y = S754_nan.
Proof.
  destruct x as [sx|sx| |sx mx ex], y as [sy|sy| |sy my ey];
    cbn [SFcompare]; intros H; try discriminate H; auto.
Qed.

Lemma compare_one_defined (x : float32) :
  SFcompare x Float32.c4096 <> None -> SFcompare x Float32.one <> None.
Proof.
  intros H Hn. apply SFcompare_None in Hn as [->|Hn]; [|discriminate Hn].
  apply H. reflexivity.
Qed.

(** The clamp always lands in the closed range. *)
Lemma clamp_in_range (x : float32) :
  Float32.leb Float32.one (Float32.clamp x Float32.one Float32.c4096) = true
  /\ Float32.leb (Float32.clamp x Float32.one Float32.c4096) Float32.c4096 = true.
Proof.
  unfold Float32.clamp, Float32.min, Float32.max.
  destruct (Float32.ltb x Float32.c4096) eqn:Hhi.
  - destruct (Float32.ltb x Float32.one) eqn:Hlo.
    + split; reflexivity.
    + split; [|apply ltb_leb; assumption].
      unfold Float32.ltb, Float32.leb, SFltb, SFleb in *.
      assert (Hdef : SFcompare x Float32.one <> None).
      { apply compare_one_defined.
        destruct (SFcompare x Float32.c4096); congruence. }
      rewrite (SFcompare_antisym x Float32.one).
      destruct (SFcompare x Float32.one) as [[]|]; simpl; congruence.
  - split; reflexivity.
Qed.

(** A value of the range is left as it is. *)
Lemma clamp_id (x : float32) :
  Float32.leb Float32.one x = true -> Float32.leb x Float32.c4096 = true ->
  Float32.clamp x Float32.one Float32.c4096 = x.
Proof.
  intros Hlo Hhi.
  unfold Float32.clamp, Float32.min, Float32.max.
  assert (Hnlt : Float32.ltb x Float32.one = false).
  { unfold Float32.ltb, Float32.leb, SFltb, SFleb in *.
    rewrite (SFcompare_antisym Float32.one x).
    destruct (SFcompare Float32.one x) as [[]|]; simpl; congruence. }
  destruct (Float32.ltb x Float32.c4096) eqn:Hlt.
  - rewrite Hnlt. reflexivity.
  - (* not below and not above: the value is 4096 itself *)
    replace (Float32.ltb Float32.c4096 Float32.one) with false by reflexivity.
    unfold Float32.ltb, Float32.leb, SFltb, SFleb, Float32.c4096 in Hlt, Hhi.
    destruct x as [s|s| |s m e]; cbn [SFcompare] in Hlt, Hhi;
      try discriminate; try (destruct s; discriminate).
    destruct s; [discriminate|].
    destruct (e ?= -11) eqn:He; try discriminate.
    apply Z.compare_eq in He. subst e.
    destruct (Pos.compare_cont Eq m 8388608) eqn:Hm; try discriminate.
    apply Pos.compare_eq in Hm. subst m. reflexivity.
Qed.

Lemma ltb_one_c4096 (x : float32) :
  Float32.ltb x Float32.one = true -> Float32.ltb x Float32.c4096 = true.
Proof.
  unfold Float32.ltb, SFltb, Float32.one, Float32.c4096.
  destruct x as [s|s| |s m e]; cbn [SFcompare]; try (intros; assumption).
  destruct s; [intros; reflexivity|].
  destruct (Z.compare_spec e (-23)) as [He|He|He]; try discriminate.
  - intros _. assert (Hlt : (e ?= -11) = Lt) by (apply Z.compare_lt_iff; lia).
    rewrite Hlt. reflexivity.
  - intros _. assert (Hlt : (e ?= -11) = Lt) by (apply Z.compare_lt_iff; lia).
    rewrite Hlt. reflexivity.
Qed.

(** What lies below the range goes to its lower end, what lies above to its
    upper end. *)
Lemma clamp_below (x : float32) :
  Float32.ltb x Float32.one = true ->
  Float32.clamp x Float32.one Float32.c4096 = Float32.one.
Proof.
  intros H. unfold Float32.clamp, Float32.min, Float32.max.
  rewrite (ltb_one_c4096 x H), H. reflexivity.
Qed.

Lemma clamp_above (x : float32) :
  Float32.ltb Float32.c4096 x = true ->
  Float32.clamp x Float32.one Float32.c4096 = Float32.c4096.
Proof.
  intros H. unfold Float32.clamp, Float32.min, Float32.max.
  rewrite (ltb_asym _ _ H). reflexivity.
Qed.

(** C2: for a half-edge index [i] (one the level buffer, when there is one,
    has an entry for) [getEdgeLevel] returns a level, never an error: the
    clamp to [1, 4096] of [levels[i]] when the level buffer is present and
    of the constant tessellation rate otherwise.  The result lies in the
    range, a value of the range is returned unchanged, a value below it
    gives [1.0] and a value above it [4096.0]; so [-1] gives [1.0], [5000]
    gives [4096.0] and [7.5] gives [7.5]. *)
Theorem getEdgeLevel_clamped {PatchData : Type} (m : SubdivMesh PatchData) (i : Z) :
  (forall lv, levels (buffers m) = Some lv -> 0 <= i < Z.of_nat (length lv)) ->
  exists x r,
    match levels (buffers m) with
    | Some lv => lv !! Z.to_nat i = Some x
    | None => tessellationRate (buffers m) = x
    end
    /\ getEdgeLevel m i = Some r
    /\ r = Float32.clamp x Float32.one Float32.c4096
    /\ Float32.leb Float32.one r = true
    /\ Float32.leb r Float32.c4096 = true
    /\ (Float32.leb Float32.one x = true ->
        Float32.leb x Float32.c4096 = true -> r = x)
    /\ (Float32.ltb x Float32.one = true -> r = Float32.one)
    /\ (Float32.ltb Float32.c4096 x = true -> r = Float32.c4096)
    /\ (x = Float32.minus_one -> r = Float32.one)
    /\ (x = Float32.c5000 -> r = Float32.c4096)
    /\ (x = Float32.c7_5 -> r = Float32.c7_5).
Proof.
  intros Hidx.
  assert (Hsrc : exists x,
             match levels (buffers m) with
             | Some lv => lv !! Z.to_nat i = Some x
             | None => tessellationRate (buffers m) = x
             end).
  { destruct (levels (buffers m)) as [lv|] eqn:Hlv.
    - destruct (lookup_lt_is_Some_2 lv (Z.to_nat i)) as [x Hx].
      + specialize (Hidx lv eq_refl). lia.
      + exists x. exact Hx.
    - exists (tessellationRate (buffers m)). reflexivity. }
  destruct Hsrc as [x Hx].
  exists x, (Float32.clamp x Float32.one Float32.c4096).
  split; [exact Hx|].
  split.
  { unfold getEdgeLevel. destruct (levels (buffers m)) as [lv|].
    - rewrite Hx. reflexivity.
    - rewrite Hx. reflexivity. }
  split; [reflexivity|].
  destruct (clamp_in_range x) as [Hlo Hhi].
  split; [exact Hlo|]. split; [exact Hhi|].
  split; [apply clamp_id|].
  split; [apply clamp_below|].
  split; [apply clamp_above|].
  split; [intros ->; reflexivity|].
  split; intros ->; reflexivity.
Qed.

Lemma getEdgeLevel_clamped_witness :
  getEdgeLevel levelledTriangle 0 = Some Float32.one
  /\ getEdgeLevel levelledTriangle 1 = Some Float32.c4096
  /\ getEdgeLevel levelledTriangle 2 = Some Float32.c7_5.
Proof.
  assert (Hin : forall i, 0 <= i < 3 ->
                forall lv, levels (buffers levelledTriangle) = Some lv ->
                           0 <= i < Z.of_nat (length lv)).
  { intros i Hi lv Hlv. injection Hlv as <-. simpl. lia. }
  destruct (getEdgeLevel_clamped levelledTriangle 0 (Hin 0 ltac:(lia)))
    as (x0 & r0 & Hx0 & Hr0 & _ & _ & _ & _ & _ & _ & Hm & _).
  destruct (getEdgeLevel_clamped levelledTriangle 1 (Hin 1 ltac:(lia)))
    as (x1 & r1 & Hx1 & Hr1 & _ & _ & _ & _ & _ & _ & _ & H5 & _).
  destruct (getEdgeLevel_clamped levelledTriangle 2 (Hin 2 ltac:(lia)))
    as (x2 & r2 & Hx2 & Hr2 & _ & _ & _ & _ & _ & _ & _ & _ & H7).
  simpl in Hx0, Hx1, Hx2.
  injection Hx0 as <-. injection Hx1 as <-. injection Hx2 as <-.
  rewrite Hr0, Hr1, Hr2.
  rewrite (Hm eq_refl), (H5 eq_refl), (H7 eq_refl).
  repeat split; reflexivity.
Defined.

End TessellationLevel.

Section FaceBorder.

Variable hes : list HalfEdge.t.

Local Abbreviation isBorder := (HalfEdge.isBorder hes).

Lemma isBorder_dec (q : nat) : isBorder q \/ ~ isBorder q.
Proof.
  unfold HalfEdge.isBorder. destruct (hes !! q) as [e|] eqn:He.
  - destruct (HalfEdge.opposite e) as [o|] eqn:Ho.
    + right. intros (e' & [= <-] & Hn). congruence.
    + left. exists e. split; [reflexivity | assumption].
  - right. intros (e' & Hn & _). discriminate.
Qed.

Lemma walk_add (a b p : nat) :
  HalfEdge.walk hes (a + b) p
  = match HalfEdge.walk hes a p with
    | Some q => HalfEdge.walk hes b q
    | None => None
    end.
Proof.
  revert p. induction a as [|a IH]; intros p; simpl; [reflexivity|].
  destruct (hes !! p); [apply IH | reflexivity].
Qed.

Lemma walk_S_inv (n p q : nat) :
  HalfEdge.walk hes (S n) p = Some q ->
  exists e, hes !! p = Some e /\ HalfEdge.walk hes n (HalfEdge.next e) = Some q.
Proof.
  simpl. destruct (hes !! p) as [e|]; [|discriminate].
  intros H. exists e. split; [reflexivity | assumption].
Qed.

(** A walk that is defined for [n] steps is defined for fewer. *)
Lemma walk_prefix (t n p q : nat) :
  (t <= n)%nat -> HalfEdge.walk hes n p = Some q ->
  exists q', HalfEdge.walk hes t p = Some q'
             /\ HalfEdge.walk hes (n - t) q' = Some q.
Proof.
  intros Hle Hw. replace n with (t + (n - t))%nat in Hw by lia.
  rewrite walk_add in Hw.
  destruct (HalfEdge.walk hes t p) as [q'|]; [|discriminate].
  exists q'. split; [reflexivity | assumption].
Qed.

(** The first border half-edge met along a walk. *)
Lemma first_border (n p h : nat) :
  HalfEdge.walk hes n p = Some h -> isBorder h ->
  exists n0 h0,
    (n0 <= n)%nat /\ HalfEdge.walk hes n0 p = Some h0 /\ isBorder h0
    /\ forall t q, (t < n0)%nat -> HalfEdge.walk hes t p = Some q -> ~ isBorder q.
Proof.
  revert p. induction n as [|n IH]; intros p Hw Hb.
  - exists 0%nat, h. repeat split; try assumption; try lia.
  - destruct (isBorder_dec p) as [Hp|Hp].
    + exists 0%nat, p. repeat split; try assumption; try lia.
    + destruct (walk_S_inv _ _ _ Hw) as (e & He & Hw').
      destruct (IH _ Hw' Hb) as (n0 & h0 & Hle & Hw0 & Hb0 & Hmin).
      exists (S n0), h0. repeat split; try assumption; try lia.
      * simpl. rewrite He. exact Hw0.
      * intros [|t] q Ht Hwt.
        -- injection Hwt as <-. exact Hp.
        -- simpl in Hwt. rewrite He in Hwt. apply (Hmin t q); [lia | exact Hwt].
Qed.

(** The loop answers [true] when it reaches a border half-edge before it
    comes back to [this] and before it runs out of rounds. *)
Lemma faceHasBorder_loop_true (this : nat) (n0 : nat) :
  forall (fuel q h0 : nat),
    HalfEdge.walk hes n0 q = Some h0 -> isBorder h0 ->
    (forall t q', (t < n0)%nat -> HalfEdge.walk hes t q = Some q' -> ~ isBorder q') ->
    (forall t, (0 < t <= n0)%nat -> HalfEdge.walk hes t q <> Some this) ->
    (n0 < fuel)%nat ->
    HalfEdge.faceHasBorder_loop fuel hes this q = Some true.
Proof.
  induction n0 as [|n0 IH]; intros fuel q h0 Hw Hb Hmin Hback Hfuel.
  - injection Hw as <-. destruct Hb as (e & He & Ho).
    destruct fuel as [|fuel]; [lia|]. simpl.
    rewrite He. unfold HalfEdge.hasOpposite. rewrite Ho. reflexivity.
  - destruct (walk_S_inv _ _ _ Hw) as (e & He & Hw').
    destruct fuel as [|fuel]; [lia|]. simpl. rewrite He.
    assert (Hopp : HalfEdge.hasOpposite e = true).
    { unfold HalfEdge.hasOpposite.
      destruct (HalfEdge.opposite e) eqn:Ho; [reflexivity|].
      exfalso. apply (Hmin 0%nat q); [lia | reflexivity |].
      exists e. split; assumption. }
    rewrite Hopp.
    assert (Hne : HalfEdge.next e <> this).
    { intros Heq. apply (Hback 1%nat); [lia|].
      simpl. rewrite He. f_equal. exact Heq. }
    apply Nat.eqb_neq in Hne. rewrite Hne.
    apply (IH fuel (HalfEdge.next e) h0); try assumption; try lia.
    + intros t q' Ht Hwt. apply (Hmin (S t) q'); [lia|].
      simpl. rewrite He. exact Hwt.
    + intros t Ht Hwt. apply (Hback (S t)); [lia|].
      simpl. rewrite He. exact Hwt.
Qed.

(** Along a walk to its first border half-edge no position is met twice. *)
Lemma first_border_no_repeat (p n0 h0 a b q : nat) :
  HalfEdge.walk hes n0 p = Some h0 -> isBorder h0 ->
  (forall t q', (t < n0)%nat -> HalfEdge.walk hes t p = Some q' -> ~ isBorder q') ->
  (a < b <= n0)%nat ->
  HalfEdge.walk hes a p = Some q -> HalfEdge.walk hes b p = Some q -> False.
Proof.
  intros Hw Hb Hmin Hab Ha Hbq.
  destruct (walk_prefix b n0 p h0 ltac:(lia) Hw) as (q' & Hq' & Hrest).
  rewrite Hbq in Hq'. injection Hq' as <-.
  apply (Hmin (a + (n0 - b))%nat h0); [lia | | exact Hb].
  rewrite walk_add, Ha. exact Hrest.
Qed.

Lemma walk_in_arena (n p q : nat) :
  HalfEdge.walk hes (S n) p = Some q ->
  forall t, (t <= n)%nat ->
            exists q', HalfEdge.walk hes t p = Some q' /\ (q' < length hes)%nat.
Proof.
  intros Hw t Ht.
  destruct (walk_prefix t (S n) p q ltac:(lia) Hw) as (q' & Hq' & Hrest).
  exists q'. split; [exact Hq'|].
  replace (S n - t)%nat with (S (n - t)) in Hrest by lia.
  destruct (walk_S_inv _ _ _ Hrest) as (e & He & _).
  apply lookup_lt_Some in He. exact He.
Qed.

(** Such a walk is shorter than the arena. *)
Lemma first_border_short (p n0 h0 : nat) :
  HalfEdge.walk hes n0 p = Some h0 -> isBorder h0 ->
  (forall t q', (t < n0)%nat -> HalfEdge.walk hes t p = Some q' -> ~ isBorder q') ->
  (n0 < length hes)%nat.
Proof.
  intros Hw Hb Hmin.
  set (pos := fun t => default 0%nat (HalfEdge.walk hes t p)).
  assert (Hdef : forall t, (t <= n0)%nat ->
                 exists q, HalfEdge.walk hes t p = Some q /\ (q < length hes)%nat).
  { intros t Ht. destruct (decide (t = n0)) as [->|Hne].
    - exists h0. split; [exact Hw|].
      destruct Hb as (e & He & _). apply lookup_lt_Some in He. exact He.
    - destruct n0 as [|n0]; [lia|].
      apply (walk_in_arena n0 p h0 Hw). lia. }
  assert (Hnd : NoDup (pos <$> seq 0 (S n0))).
  { apply NoDup_fmap_2_strong; [|apply NoDup_seq].
    intros a b Ha Hbb Heq.
    apply elem_of_seq in Ha, Hbb.
    destruct (Hdef a ltac:(lia)) as (qa & Hqa & _).
    destruct (Hdef b ltac:(lia)) as (qb & Hqb & _).
    unfold pos in Heq. rewrite Hqa, Hqb in Heq. simpl in Heq. subst qb.
    destruct (Nat.lt_trichotomy a b) as [Hlt|[Heq|Hgt]]; [|exact Heq|].
    - exfalso. apply (first_border_no_repeat p n0 h0 a b qa); try assumption. lia.
    - exfalso. apply (first_border_no_repeat p n0 h0 b a qa); try assumption. lia. }
  assert (Hsub : pos <$> seq 0 (S n0) ⊆+ seq 0 (length hes)).
  { apply NoDup_submseteq; [exact Hnd|].
    intros x Hx. apply list_elem_of_fmap in Hx as (t & -> & Ht).
    apply elem_of_seq in Ht.
    destruct (Hdef t ltac:(lia)) as (q & Hq & Hlt).
    unfold pos. rewrite Hq. simpl. apply elem_of_seq. lia. }
  apply submseteq_length in Hsub.
  rewrite length_fmap, !length_seq in Hsub. lia.
Qed.

(** A face whose cycle, walked from its first half-edge, contains a
    half-edge without twin has a border. *)
Lemma faceHasBorder_true (p n h : nat) :
  HalfEdge.walk hes n p = Some h -> isBorder h ->
  HalfEdge.faceHasBorder hes p = Some true.
Proof.
  intros Hw Hb.
  destruct (first_border n p h Hw Hb) as (n0 & h0 & _ & Hw0 & Hb0 & Hmin).
  unfold HalfEdge.faceHasBorder.
  apply (faceHasBorder_loop_true p n0 (length hes) p h0); try assumption.
  - intros t Ht Hback.
    destruct (walk_prefix t n0 p h0 ltac:(lia) Hw0) as (q' & Hq' & Hrest).
    rewrite Hback in Hq'. injection Hq' as <-.
    apply (Hmin (n0 - t)%nat h0); [lia | exact Hrest | exact Hb0].
  - apply (first_border_short p n0 h0); assumption.
Qed.

End FaceBorder.

Section Validity.

Context {PatchData : Type}.

Lemma valid_permitted (m : SubdivMesh PatchData) (i : Z) :
  boundary m <> RTC_BOUNDARY_NONE ->
  valid m i = notInvalid (invalidFace m i 0)
  /\ forall j, valid_t m i j = notInvalid (invalidFace m i j).
Proof.
  intros Hmode. unfold valid, valid_t.
  destruct (decide (boundary m = RTC_BOUNDARY_NONE)); [contradiction|].
  split; [reflexivity | intros j; reflexivity].
Qed.

(** C5: let face [i] have a half-edge without twin on its cycle (the
    half-edge reached from the face's first half-edge by following [next]).
    When the boundary mode allows no boundary faces, [valid(i)] and
    [valid(i, j)] for every time step [j] return false.  In a mode that
    permits boundaries the face is valid whenever its invalid-face flag is
    not set. *)
Theorem border_face_validity (m : SubdivMesh PatchData) (i : Z) (p n h : nat) :
  getHalfEdge m i = Some p ->
  HalfEdge.walk (halfEdges (topology m)) n p = Some h ->
  HalfEdge.isBorder (halfEdges (topology m)) h ->
  (boundary m = RTC_BOUNDARY_NONE ->
   valid m i = Some false /\ forall j, valid_t m i j = Some false)
  /\ (boundary m <> RTC_BOUNDARY_NONE ->
      (invalidFace m i 0 = Some 0 -> valid m i = Some true)
      /\ forall j, invalidFace m i j = Some 0 -> valid_t m i j = Some true).
Proof.
  intros Hp Hw Hb.
  pose proof (faceHasBorder_true _ p n h Hw Hb) as Hborder.
  split.
  - intros Hmode. unfold valid, valid_t, faceBorderTest.
    destruct (decide (boundary m = RTC_BOUNDARY_NONE)); [|contradiction].
    rewrite Hp, Hborder. split; [reflexivity | intros j; reflexivity].
  - intros Hmode. destruct (valid_permitted m i Hmode) as [Hv Hvt].
    split.
    + intros Hflag. rewrite Hv, Hflag. reflexivity.
    + intros j Hflag. rewrite Hvt, Hflag. reflexivity.
Qed.

End Validity.

Lemma border_face_validity_witness :
  exists m,
    calculateHalfEdges (twoTriangles RTC_BOUNDARY_NONE) = Ok m
    /\ getHalfEdge m 0 = Some 0%nat
    /\ HalfEdge.walk (halfEdges (topology m)) 2 0 = Some 2%nat
    /\ HalfEdge.isBorder (halfEdges (topology m)) 2
    /\ valid m 0 = Some false.
Proof.
  eexists. split; [vm_compute; reflexivity|].
  match goal with
  | |- getHalfEdge ?m 0 = _ /\ _ =>
    assert (H1 : getHalfEdge m 0 = Some 0%nat) by (vm_compute; reflexivity);
    assert (H2 : HalfEdge.walk (halfEdges (topology m)) 2 0 = Some 2%nat)
      by (vm_compute; reflexivity);
    assert (H3 : HalfEdge.isBorder (halfEdges (topology m)) 2)
      by (eexists; split; [vm_compute; reflexivity | reflexivity]);
    destruct (border_face_validity m 0 0%nat 2%nat 2%nat H1 H2 H3) as [Hnone _]
  end.
  split; [exact H1|]. split; [exact H2|]. split; [exact H3|].
  apply Hnone. reflexivity.
Defined.

Section FaceCycles.

Lemma length_faceCycle (f start : nat) (vs : list Z) :
  length (faceCycle f start vs) = length vs.
Proof. unfold faceCycle. apply length_imap. Qed.

Lemma length_allocHalfEdges (counts : list nat) :
  forall (f start : nat) (vidx : list Z),
    (sum_list counts <= length vidx)%nat ->
    length (allocHalfEdges f start counts vidx) = sum_list counts.
Proof.
  induction counts as [|k ks IH]; intros f start vidx Hlen; simpl in *.
  - reflexivity.
  - rewrite length_app, length_faceCycle, length_take.
    rewrite IH by (rewrite length_drop; lia). lia.
Qed.

Lemma prefixSums_ge (counts : list nat) :
  forall (start fi sf : nat),
    prefixSums start counts !! fi = Some sf -> (start <= sf)%nat.
Proof.
  induction counts as [|k ks IH]; intros start fi sf H; simpl in H.
  - discriminate.
  - destruct fi as [|fi]; simpl in H.
    + injection H as <-. lia.
    + apply IH in H. lia.
Qed.

(** The half-edge of local vertex [j] of face [fi] sits [j] places after
    the start of its face and points to the next local vertex, cyclically. *)
Lemma allocHalfEdges_lookup (counts : list nat) :
  forall (f start : nat) (vidx : list Z) (fi k j sf : nat),
    (sum_list counts <= length vidx)%nat ->
    counts !! fi = Some k -> (j < k)%nat ->
    prefixSums start counts !! fi = Some sf ->
    exists e,
      allocHalfEdges f start counts vidx !! (sf - start + j)%nat = Some e
      /\ HalfEdge.face e = (f + fi)%nat
      /\ HalfEdge.next e = (sf + (j + 1) mod k)%nat
      /\ HalfEdge.prev e = (sf + (j + k - 1) mod k)%nat
      /\ vidx !! (sf - start + j)%nat = Some (HalfEdge.vtx_index e).
Proof.
  induction counts as [|k0 ks IH]; intros f start vidx fi k j sf Hlen Hk Hj Hsf.
  - discriminate.
  - simpl in Hlen. destruct fi as [|fi]; simpl in Hk, Hsf.
    + injection Hk as ->. injection Hsf as <-.
      replace (start - start + j)%nat with j by lia.
      assert (Hv : is_Some (vidx !! j)) by (apply lookup_lt_is_Some_2; lia).
      destruct Hv as [v Hv].
      exists (HalfEdge.mk v f (start + (j + 1) mod k)%nat
                (start + (j + k - 1) mod k)%nat None None None None).
      simpl. rewrite lookup_app_l by (rewrite length_faceCycle, length_take; lia).
      unfold faceCycle. rewrite list_lookup_imap.
      rewrite lookup_take_lt by lia. rewrite Hv. simpl.
      rewrite length_take. replace (k `min` length vidx)%nat with k by lia.
      repeat split; try reflexivity. lia.
    + pose proof (prefixSums_ge _ _ _ _ Hsf) as Hge.
      destruct (IH (S f) (start + k0)%nat (drop k0 vidx) fi k j sf) as
        (e & He & Hf & Hn & Hp & Hv); try assumption.
      { rewrite length_drop. lia. }
      exists e. simpl.
      rewrite lookup_app_r by (rewrite length_faceCycle, length_take; lia).
      rewrite length_faceCycle, length_take.
      replace (k0 `min` length vidx)%nat with k0 by lia.
      replace (sf - start + j - k0)%nat with (sf - (start + k0) + j)%nat by lia.
      rewrite lookup_drop in Hv.
      replace (k0 + (sf - (start + k0) + j))%nat with (sf - start + j)%nat in Hv by lia.
      repeat split; try assumption. lia.
Qed.

(** Every position of the arena belongs to some face. *)
Lemma position_in_face (counts : list nat) :
  forall (start g : nat),
    (g < sum_list counts)%nat ->
    exists fi k sf j,
      counts !! fi = Some k /\ prefixSums start counts !! fi = Some sf
      /\ (j < k)%nat /\ (start + g = sf + j)%nat.
Proof.
  induction counts as [|k0 ks IH]; intros start g Hg; simpl in Hg.
  - lia.
  - destruct (Nat.lt_ge_cases g k0) as [Hlt|Hge].
    + exists 0%nat, k0, start, g. simpl. repeat split; try reflexivity; lia.
    + destruct (IH (start + k0)%nat (g - k0)%nat ltac:(lia))
        as (fi & k & sf & j & Hk & Hsf & Hj & Heq).
      exists (S fi), k, sf, j. simpl. repeat split; try assumption. lia.
Qed.

End FaceCycles.

Section BuiltCycles.

Context {PatchData : Type}.

Lemma finishHalfEdges_lookup (lvl : nat -> option float32) (opp : gmap nat nat)
  (em vm : gmap Z float32) (hes : list HalfEdge.t) (g : nat) :
  finishHalfEdges lvl opp em vm hes !! g
  = (fun e => HalfEdge.mk (HalfEdge.vtx_index e) (HalfEdge.face e)
                (HalfEdge.next e) (HalfEdge.prev e) (opp !! g)
                (lvl g)
                (match edgeKey hes g with Some k => em !! k | None => None end)
                (vm !! HalfEdge.vtx_index e)) <$> hes !! g.
Proof. unfold finishHalfEdges. apply list_lookup_imap. Qed.

Lemma length_finishHalfEdges (lvl : nat -> option float32) (opp : gmap nat nat)
  (em vm : gmap Z float32) (hes : list HalfEdge.t) :
  length (finishHalfEdges lvl opp em vm hes) = length hes.
Proof. unfold finishHalfEdges. apply length_imap. Qed.

Lemma wellShaped_vertexIndices (nfaces : Z) (b : Buffers) :
  wellShaped nfaces b = true ->
  length (vertexIndices b) = sum_list (faceCounts b).
Proof.
  unfold wellShaped. rewrite !andb_true_iff.
  intros ((((_ & H) & _) & _) & _). apply Nat.eqb_eq in H. exact H.
Qed.

Lemma built_walk (b : Buffers) (lvl : nat -> option float32)
  (opp : gmap nat nat) (em vm : gmap Z float32) (fi k sf : nat) :
  length (vertexIndices b) = sum_list (faceCounts b) ->
  faceCounts b !! fi = Some k ->
  prefixSums 0 (faceCounts b) !! fi = Some sf ->
  forall t j, (j < k)%nat ->
    HalfEdge.walk
      (finishHalfEdges lvl opp em vm
         (allocHalfEdges 0 0 (faceCounts b) (vertexIndices b))) t (sf + j)
    = Some (sf + (j + t) mod k)%nat.
Proof.
  intros Hlen Hk Hsf. induction t as [|t IH]; intros j Hj.
  - simpl. rewrite Nat.add_0_r, Nat.mod_small by lia. reflexivity.
  - destruct (allocHalfEdges_lookup (faceCounts b) 0 0 (vertexIndices b)
                fi k j sf ltac:(lia) Hk Hj Hsf) as (e & He & _ & Hn & _).
    replace (sf - 0 + j)%nat with (sf + j)%nat in He by lia.
    simpl. rewrite finishHalfEdges_lookup, He. simpl. rewrite Hn.
    rewrite IH by (apply Nat.mod_upper_bound; lia).
    rewrite Nat.Div0.add_mod_idemp_l.
    do 3 f_equal. lia.
Qed.

(** C1: a mesh built from valid input (buffers whose shapes fit) has as many
    half-edges as the per-face vertex counts add up to, and in a face of [k]
    vertices following [next] [k] times from any half-edge of the face leads
    back to that half-edge. *)
Theorem built_half_edge_cycles (m : SubdivMesh PatchData) :
  wellShaped (numFaces m) (buffers m) = true ->
  exists m',
    calculateHalfEdges m = Ok m'
    /\ numHalfEdges (topology m') = Z.of_nat (sum_list (faceCounts (buffers m)))
    /\ length (halfEdges (topology m')) = sum_list (faceCounts (buffers m))
    /\ forall f k g e,
        faceCounts (buffers m) !! f = Some k ->
        halfEdges (topology m') !! g = Some e ->
        HalfEdge.face e = f ->
        HalfEdge.walk (halfEdges (topology m')) k g = Some g.
Proof.
  intros Hshape.
  pose proof (wellShaped_vertexIndices _ _ Hshape) as Hlen.
  unfold calculateHalfEdges. rewrite Hshape.
  destruct (buildTopology m) as [t s] eqn:Hb.
  eexists. split; [reflexivity|].
  unfold buildTopology in Hb. injection Hb as <- <-. cbn [topology numHalfEdges halfEdges].
  assert (Hl : length (finishHalfEdges
                 (fun i => getEdgeLevel m (Z.of_nat i))
                 (oppositeMap (runs (sortKeys (keyHalfEdges
                    (allocHalfEdges 0 0 (faceCounts (buffers m))
                       (vertexIndices (buffers m)))))))
                 (buildEdgeCreaseMap (buffers m)) (buildVertexCreaseMap (buffers m))
                 (allocHalfEdges 0 0 (faceCounts (buffers m))
                    (vertexIndices (buffers m))))
               = sum_list (faceCounts (buffers m))).
  { rewrite length_finishHalfEdges. apply length_allocHalfEdges. lia. }
  split; [rewrite Hl; reflexivity|].
  split; [exact Hl|].
  intros f k g e Hk He Hf.
  pose proof (lookup_lt_Some _ _ _ He) as Hg. rewrite Hl in Hg.
  destruct (position_in_face (faceCounts (buffers m)) 0 g Hg)
    as (fi & k' & sf & j & Hk' & Hsf & Hj & Heq).
  simpl in Heq. subst g.
  destruct (allocHalfEdges_lookup (faceCounts (buffers m)) 0 0
              (vertexIndices (buffers m)) fi k' j sf ltac:(lia) Hk' Hj Hsf)
    as (e0 & He0 & Hf0 & _).
  replace (sf - 0 + j)%nat with (sf + j)%nat in He0 by lia.
  rewrite finishHalfEdges_lookup, He0 in He. simpl in He.
  injection He as <-. simpl in Hf. subst f.
  rewrite Hf0 in Hk. simpl in Hk.
  assert (k' = k) by congruence. subst k'.
  rewrite (built_walk (buffers m) _ _ _ _ fi k sf Hlen Hk Hsf k j Hj).
  do 2 f_equal.
  rewrite <- (Nat.mul_1_l k) at 1. rewrite Nat.Div0.mod_add.
  apply Nat.mod_small. exact Hj.
Qed.

End BuiltCycles.

Lemma built_half_edge_cycles_witness :
  wellShaped (numFaces (twoTriangles RTC_BOUNDARY_PERMITTED))
    (buffers (twoTriangles RTC_BOUNDARY_PERMITTED)) = true
  /\ exists m',
      calculateHalfEdges (twoTriangles RTC_BOUNDARY_PERMITTED) = Ok m'
      /\ numHalfEdges (topology m') = 6
      /\ HalfEdge.walk (halfEdges (topology m')) 3 4 = Some 4%nat.
Proof.
  assert (Hs : wellShaped (numFaces (twoTriangles RTC_BOUNDARY_PERMITTED))
                 (buffers (twoTriangles RTC_BOUNDARY_PERMITTED)) = true)
    by reflexivity.
  split; [exact Hs|].
  destruct (built_half_edge_cycles (twoTriangles RTC_BOUNDARY_PERMITTED) Hs)
    as (m' & Hm' & Hn & _ & Hcyc).
  exists m'. split; [exact Hm'|]. split; [exact Hn|].
  assert (He : exists e, halfEdges (topology m') !! 4%nat = Some e
                         /\ HalfEdge.face e = 1%nat).
  { revert Hm'. vm_compute. intros [= <-]. eexists. split; reflexivity. }
  destruct He as (e & He & Hf).
  apply (Hcyc 1%nat 3%nat 4%nat e); [reflexivity | exact He | exact Hf].
Defined.

Section SortAndRuns.

Local Abbreviation key := KeyHalfEdge.key.
Local Abbreviation keyLe := (fun a b : KeyHalfEdge.t => key a <= key b).

Lemma insertKey_perm (x : KeyHalfEdge.t) (l : list KeyHalfEdge.t) :
  insertKey x l ≡ₚ x :: l.
Proof.
  induction l as [|y l IH]; simpl; [reflexivity|].
  destruct (KeyHalfEdge.lt y x); [|reflexivity].
  rewrite IH. apply Permutation_swap.
Qed.

Lemma sortKeys_perm (l : list KeyHalfEdge.t) : sortKeys l ≡ₚ l.
Proof.
  induction l as [|x l IH]; simpl; [reflexivity|].
  rewrite insertKey_perm, IH. reflexivity.
Qed.

Lemma insertKey_sorted (x : KeyHalfEdge.t) (l : list KeyHalfEdge.t) :
  StronglySorted keyLe l -> StronglySorted keyLe (insertKey x l).
Proof.
  induction 1 as [|y l Hs IH Hall]; simpl.
  - repeat constructor.
  - unfold KeyHalfEdge.lt. destruct (Z.ltb_spec (key y) (key x)) as [Hlt|Hge].
    + constructor; [exact IH|].
      rewrite insertKey_perm. constructor; [lia | exact Hall].
    + constructor; [constructor; assumption|].
      constructor; [exact Hge|].
      eapply Forall_impl; [exact Hall|]. intros z Hz. simpl in *. lia.
Qed.

Lemma sortKeys_sorted (l : list KeyHalfEdge.t) : StronglySorted keyLe (sortKeys l).
Proof.
  induction l as [|x l IH]; simpl; [constructor | apply insertKey_sorted, IH].
Qed.

(** The runs put back together are the list that was scanned. *)
Lemma runs_join (l : list KeyHalfEdge.t) : mjoin (runs l) = l.
Proof.
  induction l as [|x l IH]; simpl; [reflexivity|].
  destruct (runs l) as [|[|y r] rs]; simpl in *.
  - rewrite <- IH. reflexivity.
  - rewrite <- IH. reflexivity.
  - destruct (key x =? key y); simpl; rewrite <- IH; reflexivity.
Qed.

(** On a sorted list the scan yields ordered runs. *)
Lemma runs_ordered (l : list KeyHalfEdge.t) :
  StronglySorted keyLe l -> runsOrdered (runs l).
Proof.
  induction 1 as [|x l Hs IH Hall]; simpl.
  - split; constructor.
  - destruct IH as [Hord Hruns].
    pose proof (runs_join l) as Hjoin.
    rewrite Forall_forall in Hall.
    destruct (runs l) as [|[|y r] rs] eqn:Hr.
    + split.
      * repeat constructor.
      * constructor; [|constructor]. split; [discriminate|].
        intros a b Ha Hb. apply list_elem_of_singleton in Ha, Hb. congruence.
    + exfalso. apply Forall_cons in Hruns as [[Hne _] _]. congruence.
    + apply StronglySorted_inv in Hord as [Hord Hlater].
      apply Forall_cons in Hruns as [[_ Hconst] Hruns].
      rewrite Forall_forall in Hlater.
      assert (Hy : key x <= key y).
      { apply Hall. rewrite <- Hjoin. simpl. left. }
      destruct (Z.eqb_spec (key x) (key y)) as [Heq|Hne].
      * split.
        -- constructor; [exact Hord|]. apply Forall_forall. intros r' Hr' a b Ha Hb.
           apply elem_of_cons in Ha as [->|Ha].
           ++ rewrite Heq. apply (Hlater r' Hr' y b); [left | exact Hb].
           ++ apply (Hlater r' Hr' a b); assumption.
        -- constructor; [|exact Hruns]. split; [discriminate|].
           intros a b Ha Hb.
           assert (Hk : forall c, c ∈ x :: y :: r -> key c = key y).
           { intros c Hc. apply elem_of_cons in Hc as [->|Hc]; [exact Heq|].
             apply Hconst; [exact Hc | left]. }
           rewrite (Hk a Ha), (Hk b Hb). reflexivity.
      * split.
        -- constructor; [constructor; [exact Hord | apply Forall_forall; exact Hlater]|].
           apply Forall_forall. intros r' Hr' a b Ha Hb.
           apply list_elem_of_singleton in Ha. subst a.
           apply elem_of_cons in Hr' as [->|Hr'].
           ++ rewrite (Hconst b y Hb ltac:(left)). lia.
           ++ pose proof (Hlater r' Hr' y b ltac:(left) Hb). lia.
        -- constructor; [|constructor; [split; [discriminate | exact Hconst] | exact Hruns]].
           split; [discriminate|].
           intros a b Ha Hb. apply list_elem_of_singleton in Ha, Hb. congruence.
Qed.

Lemma filter_all {A} (P : A -> Prop) `{!forall x, Decision (P x)} (l : list A) :
  (forall x, x ∈ l -> P x) -> filter P l = l.
Proof.
  induction l as [|x l IH]; intros Hl; [reflexivity|].
  rewrite filter_cons_True by (apply Hl; left).
  rewrite IH; [reflexivity|]. intros y Hy. apply Hl. right. exact Hy.
Qed.

Lemma filter_none {A} (P : A -> Prop) `{!forall x, Decision (P x)} (l : list A) :
  (forall x, x ∈ l -> ~ P x) -> filter P l = [].
Proof.
  induction l as [|x l IH]; intros Hl; [reflexivity|].
  rewrite filter_cons_False by (apply Hl; left).
  apply IH. intros y Hy. apply Hl. right. exact Hy.
Qed.

(** A run of ordered runs holds all the entries of its key. *)
Lemma run_is_filter (rs : list (list KeyHalfEdge.t)) (r : list KeyHalfEdge.t)
  (a : KeyHalfEdge.t) :
  runsOrdered rs -> r ∈ rs -> a ∈ r ->
  filter (fun b => key b = key a) (mjoin rs) = r.
Proof.
  intros [Hord Hruns]. revert r.
  induction Hord as [|r0 rs Hs IH Hlater]; intros r Hr Ha.
  - inversion Hr.
  - apply Forall_cons in Hruns as [[_ Hconst] Hruns].
    rewrite Forall_forall in Hlater.
    simpl. rewrite filter_app.
    apply elem_of_cons in Hr as [->|Hr].
    + rewrite filter_all by (intros x Hx; apply Hconst; assumption).
      rewrite filter_none; [apply app_nil_r|].
      intros x Hx. apply list_elem_of_join in Hx as (r' & Hx & Hr').
      pose proof (Hlater r' Hr' a x Ha Hx). lia.
    + rewrite filter_none.
      * simpl. apply IH; assumption.
      * intros x Hx. pose proof (Hlater r Hr x a Hx Ha). lia.
Qed.

End SortAndRuns.

Section NonManifold.

Local Abbreviation key := KeyHalfEdge.key.

(** Completing the half-edges changes neither origins nor [next] links, so
    the keys stay the same. *)
Lemma edgeKey_finish (lvl : nat -> option float32) (opp : gmap nat nat)
  (em vm : gmap Z float32) (hes : list HalfEdge.t) (g : nat) :
  edgeKey (finishHalfEdges lvl opp em vm hes) g = edgeKey hes g.
Proof.
  unfold edgeKey. rewrite finishHalfEdges_lookup.
  destruct (hes !! g) as [e|]; simpl; [|reflexivity].
  rewrite finishHalfEdges_lookup.
  destruct (hes !! HalfEdge.next e) as [n|]; reflexivity.
Qed.

Lemma keyCount_finish (lvl : nat -> option float32) (opp : gmap nat nat)
  (em vm : gmap Z float32) (hes : list HalfEdge.t) (K : Z) :
  keyCount (finishHalfEdges lvl opp em vm hes) K = keyCount hes K.
Proof.
  unfold keyCount. rewrite length_finishHalfEdges. f_equal.
  apply list_filter_iff. intros g. rewrite edgeKey_finish. reflexivity.
Qed.

Lemma keyHalfEdges_count (hes : list HalfEdge.t) (K : Z) :
  length (filter (fun x => key x = K) (keyHalfEdges hes)) = keyCount hes K.
Proof.
  unfold keyHalfEdges, keyCount.
  induction (seq 0 (length hes)) as [|g l IH]; [reflexivity|].
  cbn [omap list_omap]. rewrite (filter_cons _ g).
  destruct (edgeKey hes g) as [k|] eqn:Hk.
  - rewrite filter_cons. cbn [KeyHalfEdge.key].
    destruct (decide (k = K)) as [->|Hne].
    + rewrite decide_True by reflexivity. cbn [length]. rewrite <- IH. reflexivity.
    + rewrite decide_False by congruence. exact IH.
  - rewrite decide_False by discriminate. exact IH.
Qed.

Lemma keyHalfEdges_elem (hes : list HalfEdge.t) (K : Z) (g : nat) :
  KeyHalfEdge.mk K g ∈ keyHalfEdges hes <-> edgeKey hes g = Some K.
Proof.
  unfold keyHalfEdges. rewrite list_elem_of_omap. split.
  - intros (x & _ & Hx). destruct (edgeKey hes x) as [k|] eqn:Hk; [|discriminate].
    injection Hx as -> ->. exact Hk.
  - intros Hk. exists g. rewrite Hk. split; [|reflexivity].
    apply elem_of_seq. split; [lia|]. simpl.
    unfold edgeKey in Hk. destruct (hes !! g) as [e|] eqn:He; [|discriminate].
    apply lookup_lt_Some in He. exact He.
Qed.

(** The run of the sorted keyed list that holds a half-edge holds all the
    half-edges of its key. *)
Lemma run_of_key (hes : list HalfEdge.t) (K : Z) (g : nat) :
  edgeKey hes g = Some K ->
  exists r,
    r ∈ runs (sortKeys (keyHalfEdges hes))
    /\ KeyHalfEdge.mk K g ∈ r
    /\ r = filter (fun x => key x = K) (sortKeys (keyHalfEdges hes))
    /\ length r = keyCount hes K.
Proof.
  intros Hk.
  assert (Hin : KeyHalfEdge.mk K g ∈ mjoin (runs (sortKeys (keyHalfEdges hes)))).
  { rewrite runs_join, sortKeys_perm. apply keyHalfEdges_elem. exact Hk. }
  apply list_elem_of_join in Hin as (r & Hg & Hr).
  pose proof (run_is_filter _ r _ (runs_ordered _ (sortKeys_sorted (keyHalfEdges hes)))
                Hr Hg) as Hf.
  rewrite runs_join in Hf. simpl in Hf.
  exists r. repeat split; try assumption.
  - symmetry. exact Hf.
  - rewrite <- Hf. rewrite sortKeys_perm. apply keyHalfEdges_count.
Qed.

Lemma nonManifoldEdges_elem (rs : list (list KeyHalfEdge.t))
  (r : list KeyHalfEdge.t) (a : KeyHalfEdge.t) :
  r ∈ rs -> a ∈ r -> (2 < length r)%nat ->
  KeyHalfEdge.edge a ∈ nonManifoldEdges rs.
Proof.
  intros Hr Ha Hlen. unfold nonManifoldEdges.
  apply list_elem_of_join.
  exists (KeyHalfEdge.edge <$> r). split.
  - apply list_elem_of_fmap_2. exact Ha.
  - apply list_elem_of_fmap. exists r. split; [|exact Hr].
    apply Nat.ltb_lt in Hlen. rewrite Hlen. reflexivity.
Qed.

Lemma buildInvalidFace_lookup (flag : nat -> Z) (nfaces ntime f j : nat) :
  (f < nfaces)%nat -> (j < ntime)%nat ->
  buildInvalidFace flag nfaces ntime !! (f * ntime + j)%nat = Some (flag f).
Proof.
  intros Hf Hj. unfold buildInvalidFace.
  rewrite list_lookup_fmap, lookup_seq_lt by nia. simpl.
  do 2 f_equal.
  rewrite Nat.div_add_l by lia. rewrite Nat.div_small by lia. lia.
Qed.

End NonManifold.

Section Pairing.

Local Abbreviation key := KeyHalfEdge.key.
Local Abbreviation edge := KeyHalfEdge.edge.

Lemma keyHalfEdges_NoDup (hes : list HalfEdge.t) :
  NoDup (edge <$> keyHalfEdges hes).
Proof.
  unfold keyHalfEdges.
  pose proof (NoDup_seq 0 (length hes)) as Hnd.
  induction Hnd as [|g l Hg Hnd IH]; [constructor|].
  cbn [omap list_omap].
  destruct (edgeKey hes g) as [k|]; [|exact IH].
  cbn [fmap list_fmap edge]. constructor; [|exact IH].
  intros Hin. apply Hg.
  apply list_elem_of_fmap in Hin as (x & -> & Hx).
  apply list_elem_of_omap in Hx as (i & Hi & Hx).
  destruct (edgeKey hes i); [|discriminate].
  injection Hx as <-. exact Hi.
Qed.

Lemma sorted_NoDup (hes : list HalfEdge.t) :
  NoDup (edge <$> mjoin (runs (sortKeys (keyHalfEdges hes)))).
Proof.
  rewrite runs_join, sortKeys_perm. apply keyHalfEdges_NoDup.
Qed.

Lemma NoDup_fmap_eq {A B} (f : A -> B) (l : list A) (x y : A) :
  NoDup (f <$> l) -> x ∈ l -> y ∈ l -> f x = f y -> x = y.
Proof.
  induction l as [|z l IH]; intros Hnd Hx Hy Hf; [inversion Hx|].
  rewrite fmap_cons in Hnd. apply NoDup_cons in Hnd as [Hz Hnd].
  apply elem_of_cons in Hx as [->|Hx]; apply elem_of_cons in Hy as [->|Hy].
  - reflexivity.
  - exfalso. apply Hz. rewrite Hf. apply list_elem_of_fmap_2. exact Hy.
  - exfalso. apply Hz. rewrite <- Hf. apply list_elem_of_fmap_2. exact Hx.
  - apply IH; assumption.
Qed.

(** A run of two makes its half-edges opposites of each other. *)
Lemma oppositeMap_pair (rs : list (list KeyHalfEdge.t)) (a b : KeyHalfEdge.t) :
  NoDup (edge <$> mjoin rs) -> [a; b] ∈ rs ->
  oppositeMap rs !! edge a = Some (edge b)
  /\ oppositeMap rs !! edge b = Some (edge a).
Proof.
  induction rs as [|r0 rs IH]; intros Hnd Hin; [inversion Hin|].
  cbn [mjoin list_join] in Hnd. rewrite fmap_app in Hnd.
  apply NoDup_app in Hnd as (Hnd0 & Hdisj & Hnd').
  unfold oppositeMap. cbn [foldr]. fold (oppositeMap rs).
  apply elem_of_cons in Hin as [<-|Hin].
  - cbn [linkRun]. cbn [fmap list_fmap] in Hnd0.
    apply NoDup_cons in Hnd0 as [Hab _].
    assert (edge a <> edge b) by (intros Heq; apply Hab; rewrite Heq; left).
    split.
    + apply lookup_insert_eq.
    + rewrite lookup_insert_ne by assumption. apply lookup_insert_eq.
  - destruct (IH Hnd' Hin) as [Ha Hb].
    assert (Hina : edge a ∈ edge <$> mjoin rs).
    { apply list_elem_of_fmap_2, list_elem_of_join. exists [a; b].
      split; [left | exact Hin]. }
    assert (Hinb : edge b ∈ edge <$> mjoin rs).
    { apply list_elem_of_fmap_2, list_elem_of_join. exists [a; b].
      split; [right; left | exact Hin]. }
    destruct r0 as [|c [|d [|x r0]]]; cbn [linkRun]; try (split; assumption).
    assert (Hc : edge c ∈ edge <$> [c; d]) by (apply list_elem_of_fmap_2; left).
    assert (Hd : edge d ∈ edge <$> [c; d])
      by (apply list_elem_of_fmap_2; right; left).
    pose proof (Hdisj _ Hc) as Hc'. pose proof (Hdisj _ Hd) as Hd'.
    assert (Hca : edge c <> edge a) by (intros Heq; apply Hc'; rewrite Heq; exact Hina).
    assert (Hcb : edge c <> edge b) by (intros Heq; apply Hc'; rewrite Heq; exact Hinb).
    assert (Hda : edge d <> edge a) by (intros Heq; apply Hd'; rewrite Heq; exact Hina).
    assert (Hdb : edge d <> edge b) by (intros Heq; apply Hd'; rewrite Heq; exact Hinb).
    split.
    + rewrite !lookup_insert_ne by assumption. exact Ha.
    + rewrite !lookup_insert_ne by assumption. exact Hb.
Qed.

(** A half-edge outside the runs of two keeps the sentinel. *)
Lemma oppositeMap_none (rs : list (list KeyHalfEdge.t)) (g : nat) :
  (forall a b, [a; b] ∈ rs -> g <> edge a /\ g <> edge b) ->
  oppositeMap rs !! g = None.
Proof.
  induction rs as [|r0 rs IH]; intros Hout; [apply lookup_empty|].
  unfold oppositeMap. cbn [foldr]. fold (oppositeMap rs).
  assert (Hrest : oppositeMap rs !! g = None).
  { apply IH. intros a b Hab. apply Hout. right. exact Hab. }
  destruct r0 as [|c [|d [|x r0]]]; cbn [linkRun]; try exact Hrest.
  destruct (Hout c d ltac:(left)) as [Hc Hd].
  rewrite !lookup_insert_ne by congruence. exact Hrest.
Qed.

(** The opposite the builder gives to the half-edges of a key shared by
    exactly two half-edges: each other. *)
Lemma opposite_of_pair (hes : list HalfEdge.t) (K : Z) (g g' : nat) :
  keyCount hes K = 2%nat ->
  edgeKey hes g = Some K -> edgeKey hes g' = Some K -> g <> g' ->
  oppositeMap (runs (sortKeys (keyHalfEdges hes))) !! g = Some g'.
Proof.
  intros Hcount Hg Hg' Hne.
  destruct (run_of_key hes K g Hg) as (r & Hr & Hin & Hf & Hlen).
  assert (Hin' : KeyHalfEdge.mk K g' ∈ r).
  { rewrite Hf. apply list_elem_of_filter. split; [reflexivity|].
    rewrite sortKeys_perm. apply keyHalfEdges_elem. exact Hg'. }
  rewrite Hcount in Hlen.
  destruct r as [|a [|b [|c r]]]; try discriminate Hlen.
  destruct (oppositeMap_pair _ a b (sorted_NoDup hes) Hr) as [Hab Hba].
  apply elem_of_cons in Hin as [Ha|Hin]; apply elem_of_cons in Hin' as [Ha'|Hin'].
  - congruence.
  - apply list_elem_of_singleton in Hin'. subst a b. exact Hab.
  - apply list_elem_of_singleton in Hin. subst a b. exact Hba.
  - apply list_elem_of_singleton in Hin, Hin'. congruence.
Qed.

(** A half-edge whose key no other half-edge shares stays on the
    boundary. *)
Lemma opposite_of_single (hes : list HalfEdge.t) (K : Z) (g : nat) :
  keyCount hes K = 1%nat -> edgeKey hes g = Some K ->
  oppositeMap (runs (sortKeys (keyHalfEdges hes))) !! g = None.
Proof.
  intros Hcount Hg.
  destruct (run_of_key hes K g Hg) as (r & Hr & Hin & Hf & Hlen).
  rewrite Hcount in Hlen.
  assert (Hall : KeyHalfEdge.mk K g ∈ mjoin (runs (sortKeys (keyHalfEdges hes)))).
  { apply list_elem_of_join. exists r. split; assumption. }
  assert (Hsame : forall r' x, r' ∈ runs (sortKeys (keyHalfEdges hes)) ->
                               x ∈ r' -> edge x = g -> r' = r).
  { intros r' x Hr' Hx Hedge.
    assert (Hx' : x ∈ mjoin (runs (sortKeys (keyHalfEdges hes)))).
    { apply list_elem_of_join. exists r'. split; assumption. }
    assert (x = KeyHalfEdge.mk K g).
    { apply (NoDup_fmap_eq edge _ _ _ (sorted_NoDup hes) Hx' Hall). exact Hedge. }
    subst x.
    pose proof (run_is_filter _ r' _
                  (runs_ordered _ (sortKeys_sorted (keyHalfEdges hes))) Hr' Hx) as Hf'.
    rewrite runs_join in Hf'. simpl in Hf'. congruence. }
  apply oppositeMap_none. intros a b Hab.
  split; intros Heq.
  - rewrite <- (Hsame [a; b] a Hab ltac:(left) (eq_sym Heq)) in Hlen. discriminate.
  - rewrite <- (Hsame [a; b] b Hab ltac:(right; left) (eq_sym Heq)) in Hlen.
    discriminate.
Qed.

End Pairing.

Section NonManifoldClaim.

Context {PatchData : Type}.

Lemma wellShaped_faceVertices (nfaces : Z) (b : Buffers) :
  wellShaped nfaces b = true -> length (faceCounts b) = Z.to_nat nfaces.
Proof.
  unfold wellShaped, faceCounts. rewrite !andb_true_iff, length_fmap.
  intros ((((H & _) & _) & _) & _). apply Nat.eqb_eq in H. exact H.
Qed.

(** Every half-edge of the arena is owned by a face of the mesh. *)
Lemma alloc_face_in_range (b : Buffers) (g : nat) (e : HalfEdge.t) :
  length (vertexIndices b) = sum_list (faceCounts b) ->
  allocHalfEdges 0 0 (faceCounts b) (vertexIndices b) !! g = Some e ->
  (HalfEdge.face e < length (faceCounts b))%nat.
Proof.
  intros Hlen He.
  pose proof (lookup_lt_Some _ _ _ He) as Hg.
  rewrite length_allocHalfEdges in Hg by lia.
  destruct (position_in_face (faceCounts b) 0 g Hg)
    as (fi & k & sf & j & Hk & Hsf & Hj & Heq).
  simpl in Heq. subst g.
  destruct (allocHalfEdges_lookup (faceCounts b) 0 0 (vertexIndices b)
              fi k j sf ltac:(lia) Hk Hj Hsf) as (e0 & He0 & Hf0 & _).
  replace (sf - 0 + j)%nat with (sf + j)%nat in He0 by lia.
  rewrite He in He0. injection He0 as <-.
  rewrite Hf0. simpl. apply lookup_lt_Some in Hk. exact Hk.
Qed.

Lemma faceFlag_nonManifold (mode : RTCBoundaryMode) (nverts : Z) (b : Buffers)
  (hs : gset Z) (nm : gset nat) (hes : list HalfEdge.t)
  (faces : list (nat * nat)) (f : nat) :
  f ∈ nm -> faceFlag mode nverts b hs nm hes faces f = 1.
Proof.
  intros Hf. unfold faceFlag, faceInvalid.
  destruct (faces !! f) as [[start k]|]; [|reflexivity].
  rewrite (bool_decide_true (f ∈ nm)) by exact Hf.
  rewrite orb_true_r. reflexivity.
Qed.

Lemma invalidFace_index (f : nat) (nf nt j : Z) :
  (f < Z.to_nat nf)%nat -> 0 <= j < nt -> is_size_t (nf * nt) ->
  Z.to_nat (size_add (size_mul (Z.of_nat f) nt) j)
  = (f * Z.to_nat nt + Z.to_nat j)%nat.
Proof.
  unfold is_size_t, size_add, size_mul, wrap. intros Hf Hj Hsz.
  assert (0 <= Z.of_nat f * nt + j < 2 ^ 64) by nia.
  rewrite Z.add_mod_idemp_l by lia.
  rewrite Z.mod_small by assumption.
  rewrite Z2Nat.inj_add by nia.
  rewrite Z2Nat.inj_mul by lia.
  rewrite Nat2Z.id. reflexivity.
Qed.

(** A set flag is never reported valid. *)
Lemma invalid_flag_not_valid (m : SubdivMesh PatchData) (i j : Z) :
  invalidFace m i j = Some 1 ->
  valid_t m i j <> Some true
  /\ (boundary m <> RTC_BOUNDARY_NONE -> valid_t m i j = Some false).
Proof.
  intros Hflag. unfold valid_t. rewrite Hflag. simpl.
  destruct (decide (boundary m = RTC_BOUNDARY_NONE)) as [Hm|Hm].
  - split; [|contradiction].
    destruct (faceBorderTest m i) as [[|]|]; discriminate.
  - split; [discriminate | reflexivity].
Qed.

End NonManifoldClaim.

Section BuiltFlags.

Context {PatchData : Type}.

Local Abbreviation key := KeyHalfEdge.key.
Local Abbreviation edge := KeyHalfEdge.edge.

(** Only half-edges of a run longer than two are collected. *)
Lemma nonManifoldEdges_inv (rs : list (list KeyHalfEdge.t)) (g : nat) :
  g ∈ nonManifoldEdges rs ->
  exists r a, r ∈ rs /\ a ∈ r /\ edge a = g /\ (2 < length r)%nat.
Proof.
  unfold nonManifoldEdges. intros H.
  apply list_elem_of_join in H as (l & Hg & Hl).
  apply list_elem_of_fmap in Hl as (r & -> & Hr).
  destruct (2 <? length r)%nat eqn:Hlen.
  - apply list_elem_of_fmap in Hg as (a & -> & Ha).
    exists r, a. apply Nat.ltb_lt in Hlen. auto.
  - apply elem_of_nil in Hg. contradiction.
Qed.

(** The faces collected as non-manifold are exactly the owners of a
    half-edge whose key more than two half-edges share. *)
Lemma nonManifoldFaces_elem (hes0 hes : list HalfEdge.t) (f : nat) :
  f ∈ nonManifoldFaces hes (runs (sortKeys (keyHalfEdges hes0)))
  <-> exists g e K,
        hes !! g = Some e /\ HalfEdge.face e = f
        /\ edgeKey hes0 g = Some K /\ (2 < keyCount hes0 K)%nat.
Proof.
  unfold nonManifoldFaces. rewrite elem_of_list_to_set, list_elem_of_omap.
  split.
  - intros (g & Hg & Hf).
    destruct (hes !! g) as [e|] eqn:He; [|discriminate].
    injection Hf as Hf.
    apply nonManifoldEdges_inv in Hg as (r & a & Hr & Ha & Hedge & Hlen).
    assert (Hin : a ∈ keyHalfEdges hes0).
    { rewrite <- (sortKeys_perm (keyHalfEdges hes0)), <- (runs_join (sortKeys _)).
      apply list_elem_of_join. exists r. auto. }
    destruct a as [K g']. simpl in Hedge. subst g'.
    apply keyHalfEdges_elem in Hin.
    exists g, e, K. repeat split; try assumption.
    destruct (run_of_key hes0 K g Hin) as (r' & _ & _ & Hr' & Hlen').
    pose proof (run_is_filter _ r (KeyHalfEdge.mk K g)
                  (runs_ordered _ (sortKeys_sorted (keyHalfEdges hes0))) Hr Ha)
      as Hfilter.
    rewrite runs_join in Hfilter. simpl in Hfilter.
    rewrite <- Hlen'. rewrite Hr'. rewrite Hfilter. exact Hlen.
  - intros (g & e & K & He & Hf & Hk & Hcount).
    exists g. split.
    + destruct (run_of_key hes0 K g Hk) as (r & Hr & Hin & _ & Hlenr).
      apply (nonManifoldEdges_elem _ r (KeyHalfEdge.mk K g)); try assumption. lia.
    + rewrite He. simpl. f_equal. exact Hf.
Qed.

(** The boundary test of a face looks at the [k] half-edges from its
    start. *)
Lemma touchesBoundary_true (hes : list HalfEdge.t) (start k : nat) :
  touchesBoundary hes start k = true
  <-> exists j e, (j < k)%nat /\ hes !! (start + j)%nat = Some e
                  /\ HalfEdge.opposite e = None.
Proof.
  unfold touchesBoundary. rewrite existsb_exists. split.
  - intros (e & Hin & Hopp).
    apply list_elem_of_In, list_elem_of_lookup in Hin as (j & Hj).
    apply lookup_take_Some in Hj as (Hj & Hlt).
    rewrite lookup_drop in Hj.
    exists j, e. repeat split; try assumption.
    unfold HalfEdge.hasOpposite in Hopp.
    destruct (HalfEdge.opposite e); [discriminate | reflexivity].
  - intros (j & e & Hlt & He & Hopp).
    exists e. split.
    + apply list_elem_of_In, list_elem_of_lookup. exists j.
      apply lookup_take_Some. split; [|exact Hlt].
      rewrite lookup_drop. exact He.
    + unfold HalfEdge.hasOpposite. rewrite Hopp. reflexivity.
Qed.

Lemma remove_dups_NoDup (l : list Z) : NoDup l -> remove_dups l = l.
Proof.
  induction 1 as [|x l Hx _ IH]; simpl; [reflexivity|].
  destruct (decide_rel elem_of x l) as [Hin|_]; [contradiction|].
  rewrite IH. reflexivity.
Qed.

(** A vertex cycle is sound when it has three vertices or more, all
    different. *)
Lemma degenerate_false (vs : list Z) :
  degenerate vs = false <-> (3 <= length vs)%nat /\ NoDup vs.
Proof.
  unfold degenerate. rewrite orb_false_iff, negb_false_iff, bool_decide_eq_true.
  rewrite Nat.ltb_ge. split.
  - intros [Hlen Hnd]. rewrite remove_dups_NoDup in Hlen by exact Hnd. auto.
  - intros [Hlen Hnd]. rewrite remove_dups_NoDup by exact Hnd. auto.
Qed.

Lemma outOfRange_false (nverts : Z) (vs : list Z) :
  outOfRange nverts vs = false <-> forall v, v ∈ vs -> 0 <= v < nverts.
Proof.
  unfold outOfRange. split.
  - intros H v Hv.
    destruct (Z.ltb_spec v 0) as [Hlo|Hlo], (Z.leb_spec nverts v) as [Hhi|Hhi];
      try lia;
      assert (Hex : existsb (fun v => (v <? 0) || (nverts <=? v)) vs = true)
        by (apply existsb_exists; exists v; split;
            [apply list_elem_of_In; exact Hv|];
            apply orb_true_iff;
            first [left; apply Z.ltb_lt; lia | right; apply Z.leb_le; lia]);
      congruence.
  - intros H. apply not_true_is_false. intros Hex.
    apply existsb_exists in Hex as (v & Hin & Hv).
    apply list_elem_of_In in Hin. specialize (H v Hin).
    apply orb_true_iff in Hv as [Hv|Hv];
      [apply Z.ltb_lt in Hv | apply Z.leb_le in Hv]; lia.
Qed.

(** In the built arena the half-edges of face [f] are the [k] positions
    from its start. *)
Lemma alloc_face_positions (b : Buffers) (f k sf g : nat) (e : HalfEdge.t) :
  length (vertexIndices b) = sum_list (faceCounts b) ->
  faceCounts b !! f = Some k ->
  prefixSums 0 (faceCounts b) !! f = Some sf ->
  allocHalfEdges 0 0 (faceCounts b) (vertexIndices b) !! g = Some e ->
  HalfEdge.face e = f <-> exists j, (j < k)%nat /\ g = (sf + j)%nat.
Proof.
  intros Hlen Hk Hsf He.
  pose proof (lookup_lt_Some _ _ _ He) as Hg.
  rewrite length_allocHalfEdges in Hg by lia.
  destruct (position_in_face (faceCounts b) 0 g Hg)
    as (fi & k' & sf' & j' & Hk' & Hsf' & Hj' & Heq).
  simpl in Heq. subst g.
  destruct (allocHalfEdges_lookup (faceCounts b) 0 0 (vertexIndices b)
              fi k' j' sf' ltac:(lia) Hk' Hj' Hsf') as (e0 & He0 & Hf0 & _).
  replace (sf' - 0 + j')%nat with (sf' + j')%nat in He0 by lia.
  rewrite He in He0. injection He0 as <-. simpl in Hf0.
  split.
  - intros Hf. rewrite Hf0 in Hf. rewrite Hf in Hk', Hsf'.
    rewrite Hk in Hk'. rewrite Hsf in Hsf'.
    injection Hk' as <-. injection Hsf' as <-. exists j'. auto.
  - intros (j & Hj & Hpos).
    destruct (allocHalfEdges_lookup (faceCounts b) 0 0 (vertexIndices b)
                f k j sf ltac:(lia) Hk Hj Hsf) as (e1 & He1 & Hf1 & _).
    replace (sf - 0 + j)%nat with (sf + j)%nat in He1 by lia.
    rewrite <- Hpos in He1. rewrite He in He1. injection He1 as <-.
    exact Hf1.
Qed.

(** What makes a face of the built arena sound: it is no hole, its vertex
    cycle has three vertices or more, all different and all in range, none
    of its half-edges lies on a key that more than two half-edges share,
    and none of them is a boundary half-edge when the mode allows none. *)
Lemma faceInvalid_false (mode : RTCBoundaryMode) (nverts : Z) (b : Buffers)
  (lvl : nat -> option float32) (em vm : gmap Z float32) (f k sf : nat) :
  let hes0 := allocHalfEdges 0 0 (faceCounts b) (vertexIndices b) in
  let rs := runs (sortKeys (keyHalfEdges hes0)) in
  let hes := finishHalfEdges lvl (oppositeMap rs) em vm hes0 in
  length (vertexIndices b) = sum_list (faceCounts b) ->
  faceCounts b !! f = Some k ->
  prefixSums 0 (faceCounts b) !! f = Some sf ->
  faceInvalid mode nverts b (buildHoleSet b) (nonManifoldFaces hes rs) hes f sf k
  = false
  <-> (Z.of_nat f ∉ holes b)
      /\ (3 <= length (take k (drop sf (vertexIndices b))))%nat
      /\ NoDup (take k (drop sf (vertexIndices b)))
      /\ (forall v, v ∈ take k (drop sf (vertexIndices b)) -> 0 <= v < nverts)
      /\ (forall g e K,
            hes !! g = Some e -> HalfEdge.face e = f ->
            edgeKey hes g = Some K -> (keyCount hes K <= 2)%nat)
      /\ (mode = RTC_BOUNDARY_NONE ->
          forall g e, hes !! g = Some e -> HalfEdge.face e = f ->
                      HalfEdge.opposite e <> None).
Proof.
  intros hes0 rs hes Hlen Hk Hsf.
  assert (Hnm : bool_decide (f ∈ nonManifoldFaces hes rs) = false
                <-> forall g e K,
                      hes !! g = Some e -> HalfEdge.face e = f ->
                      edgeKey hes g = Some K -> (keyCount hes K <= 2)%nat).
  { rewrite bool_decide_eq_false. unfold rs. rewrite nonManifoldFaces_elem.
    split.
    - intros Hno g e K He Hf HK.
      destruct (le_lt_dec (keyCount hes K) 2) as [Hle|Hgt]; [exact Hle|].
      exfalso. apply Hno. exists g, e, K.
      unfold hes in HK, Hgt. rewrite edgeKey_finish in HK.
      rewrite keyCount_finish in Hgt. auto.
    - intros Hall (g & e & K & He & Hf & HK & Hgt).
      specialize (Hall g e K He Hf).
      unfold hes in Hall. rewrite edgeKey_finish, keyCount_finish in Hall.
      specialize (Hall HK). lia. }
  assert (Hbd : touchesBoundary hes sf k = false
                <-> forall g e, hes !! g = Some e -> HalfEdge.face e = f ->
                                HalfEdge.opposite e <> None).
  { split.
    - intros Hno g e He Hf Hopp.
      assert (Htrue : touchesBoundary hes sf k = true); [|congruence].
      apply touchesBoundary_true.
      pose proof He as He'. unfold hes in He'.
      rewrite finishHalfEdges_lookup in He'.
      destruct (hes0 !! g) as [e0|] eqn:He0; [|discriminate].
      injection He' as He'.
      assert (Hf0 : HalfEdge.face e0 = f) by (rewrite <- Hf, <- He'; reflexivity).
      apply (alloc_face_positions b f k sf g e0 Hlen Hk Hsf He0) in Hf0
        as (j & Hj & ->).
      exists j, e. auto.
    - intros Hall. apply not_true_is_false. intros Htrue.
      apply touchesBoundary_true in Htrue as (j & e & Hj & He & Hopp).
      apply (Hall (sf + j)%nat e He); [|exact Hopp].
      pose proof He as He'. unfold hes in He'.
      rewrite finishHalfEdges_lookup in He'.
      destruct (hes0 !! (sf + j)%nat) as [e0|] eqn:He0; [|discriminate].
      injection He' as He'. rewrite <- He'. cbn [HalfEdge.face].
      apply (alloc_face_positions b f k sf (sf + j) e0 Hlen Hk Hsf He0).
      exists j. auto. }
  unfold faceInvalid. rewrite !orb_false_iff, andb_false_iff.
  rewrite bool_decide_eq_false, degenerate_false, outOfRange_false, Hnm.
  unfold buildHoleSet. rewrite elem_of_list_to_set.
  rewrite bool_decide_eq_false, Hbd.
  split.
  - intros ((((Hh & Hd1 & Hd2) & Hr) & Hn) & Hb).
    do 5 (split; [assumption|]).
    intros Hmode. destruct Hb as [Hb|Hb]; [contradiction | exact Hb].
  - intros (Hh & Hd1 & Hd2 & Hr & Hn & Hb).
    split; [split; [split; [auto|assumption]|assumption]|].
    destruct (decide (mode = RTC_BOUNDARY_NONE)) as [Hmode|Hmode];
      [right; exact (Hb Hmode) | left; exact Hmode].
Qed.

(** C8: construction completes on every input whose buffer shapes fit (the
    flag table fitting the address space), also when a key is shared by more
    than two half-edges; every face owning a half-edge of such a key is
    marked invalid at every time step, hence never reported valid.  The
    rest is built as usual: all half-edges are there, a key shared by
    exactly two half-edges pairs them as opposites, a key of one half-edge
    leaves it on the boundary, and every flag is 0 or 1, where 0 is the
    flag of exactly those faces that are no hole, have a cycle of three or
    more different vertices in range, own no half-edge of a key shared by
    more than two half-edges and, when the mode allows no boundary, own no
    boundary half-edge; such a face is reported valid when boundaries are
    permitted. *)
Theorem non_manifold_faces_invalid (m : SubdivMesh PatchData) :
  wellShaped (numFaces m) (buffers m) = true ->
  is_size_t (numFaces m * numTimeSteps m) ->
  exists m',
    calculateHalfEdges m = Ok m'
    /\ length (halfEdges (topology m')) = sum_list (faceCounts (buffers m))
    /\ (forall K g e j,
          (2 < keyCount (halfEdges (topology m')) K)%nat ->
          halfEdges (topology m') !! g = Some e ->
          edgeKey (halfEdges (topology m')) g = Some K ->
          0 <= j < numTimeSteps m' ->
          invalidFace m' (Z.of_nat (HalfEdge.face e)) j = Some 1
          /\ valid_t m' (Z.of_nat (HalfEdge.face e)) j <> Some true
          /\ (boundary m' <> RTC_BOUNDARY_NONE ->
              valid_t m' (Z.of_nat (HalfEdge.face e)) j = Some false))
    /\ (forall K g g' e,
          keyCount (halfEdges (topology m')) K = 2%nat ->
          halfEdges (topology m') !! g = Some e ->
          edgeKey (halfEdges (topology m')) g = Some K ->
          edgeKey (halfEdges (topology m')) g' = Some K ->
          g <> g' ->
          HalfEdge.opposite e = Some g')
    /\ (forall K g e,
          keyCount (halfEdges (topology m')) K = 1%nat ->
          halfEdges (topology m') !! g = Some e ->
          edgeKey (halfEdges (topology m')) g = Some K ->
          HalfEdge.opposite e = None)
    /\ (forall f k sf j,
          faceCounts (buffers m) !! f = Some k ->
          prefixSums 0 (faceCounts (buffers m)) !! f = Some sf ->
          0 <= j < numTimeSteps m' ->
          (invalidFace m' (Z.of_nat f) j = Some 0
           \/ invalidFace m' (Z.of_nat f) j = Some 1)
          /\ (invalidFace m' (Z.of_nat f) j = Some 0
              <-> (Z.of_nat f ∉ holes (buffers m))
                  /\ (3 <= length (take k (drop sf (vertexIndices (buffers m)))))%nat
                  /\ NoDup (take k (drop sf (vertexIndices (buffers m))))
                  /\ (forall v, v ∈ take k (drop sf (vertexIndices (buffers m))) ->
                                0 <= v < numVertices m)
                  /\ (forall g e K,
                        halfEdges (topology m') !! g = Some e ->
                        HalfEdge.face e = f ->
                        edgeKey (halfEdges (topology m')) g = Some K ->
                        (keyCount (halfEdges (topology m')) K <= 2)%nat)
                  /\ (boundary m = RTC_BOUNDARY_NONE ->
                      forall g e,
                        halfEdges (topology m') !! g = Some e ->
                        HalfEdge.face e = f ->
                        HalfEdge.opposite e <> None))
          /\ (boundary m <> RTC_BOUNDARY_NONE ->
              invalidFace m' (Z.of_nat f) j = Some 0 ->
              valid_t m' (Z.of_nat f) j = Some true)).
Proof.
  intros Hshape Hsize.
  pose proof (wellShaped_vertexIndices _ _ Hshape) as Hlen.
  pose proof (wellShaped_faceVertices _ _ Hshape) as Hfaces.
  unfold calculateHalfEdges. rewrite Hshape.
  destruct (buildTopology m) as [t s] eqn:Hb.
  eexists. split; [reflexivity|].
  unfold buildTopology in Hb. injection Hb as <- <-.
  cbn [topology numHalfEdges halfEdges invalid_face numTimeSteps].
  set (b := buffers m) in *.
  set (hes0 := allocHalfEdges 0 0 (faceCounts b) (vertexIndices b)).
  set (rs := runs (sortKeys (keyHalfEdges hes0))).
  set (hes := finishHalfEdges (fun i => getEdgeLevel m (Z.of_nat i))
                (oppositeMap rs) (buildEdgeCreaseMap b)
                (buildVertexCreaseMap b) hes0).
  assert (Hl : length hes = sum_list (faceCounts b)).
  { unfold hes. rewrite length_finishHalfEdges. apply length_allocHalfEdges. lia. }
  split; [exact Hl|].
  split; [|split; [|split]].
  - intros K g e j Hcount He Hk Hj.
    match goal with
    | |- invalidFace ?mm ?i ?jj = _ /\ _ =>
      assert (Hflag : invalidFace mm i jj = Some 1);
        [|split; [exact Hflag | apply invalid_flag_not_valid; exact Hflag]]
    end.
    unfold invalidFace.
    cbn [topology numHalfEdges halfEdges invalid_face numTimeSteps].
    fold b hes0 rs hes.
    unfold hes in Hcount, He, Hk.
    rewrite keyCount_finish in Hcount. rewrite edgeKey_finish in Hk.
    rewrite finishHalfEdges_lookup in He.
    destruct (hes0 !! g) as [e0|] eqn:He0; [|discriminate].
    injection He as <-. cbn [HalfEdge.face].
    pose proof (alloc_face_in_range b g e0 Hlen He0) as Hf.
    rewrite (invalidFace_index _ (numFaces m)) by (try assumption; lia).
    rewrite buildInvalidFace_lookup by lia.
    f_equal. apply faceFlag_nonManifold.
    apply nonManifoldFaces_elem. exists g.
    eexists. exists K.
    split; [unfold hes; rewrite finishHalfEdges_lookup, He0; reflexivity|].
    split; [reflexivity | split; assumption].
  - intros K g g' e Hcount He Hk Hk' Hne.
    unfold hes in Hcount, He, Hk, Hk'.
    rewrite keyCount_finish in Hcount. rewrite edgeKey_finish in Hk, Hk'.
    rewrite finishHalfEdges_lookup in He.
    destruct (hes0 !! g) as [e0|]; [|discriminate].
    injection He as <-. cbn [HalfEdge.opposite].
    apply (opposite_of_pair hes0 K); assumption.
  - intros K g e Hcount He Hk.
    unfold hes in Hcount, He, Hk.
    rewrite keyCount_finish in Hcount. rewrite edgeKey_finish in Hk.
    rewrite finishHalfEdges_lookup in He.
    destruct (hes0 !! g) as [e0|]; [|discriminate].
    injection He as <-. cbn [HalfEdge.opposite].
    apply (opposite_of_single hes0 K); assumption.
  - intros f k sf j Hk Hsf Hj.
    pose proof (lookup_lt_Some _ _ _ Hk) as Hf.
    pose proof (faceInvalid_false (boundary m) (numVertices m) b
                  (fun i => getEdgeLevel m (Z.of_nat i))
                  (buildEdgeCreaseMap b) (buildVertexCreaseMap b) f k sf
                  Hlen Hk Hsf) as Hclean.
    cbv zeta in Hclean. fold hes0 rs hes in Hclean.
    match goal with
    | |- (invalidFace ?mm ?i ?jj = _ \/ _) /\ _ =>
      assert (Hflag : invalidFace mm i jj
                      = Some (if faceInvalid (boundary m) (numVertices m) b
                                   (buildHoleSet b) (nonManifoldFaces hes rs)
                                   hes f sf k
                              then 1 else 0))
    end.
    { unfold invalidFace.
      cbn [topology numHalfEdges halfEdges invalid_face numTimeSteps].
      fold b hes0 rs hes.
      rewrite (invalidFace_index _ (numFaces m)) by (try assumption; lia).
      rewrite buildInvalidFace_lookup by lia.
      unfold faceFlag.
      assert (Hz : zip (prefixSums 0 (faceCounts b)) (faceCounts b) !! f
                   = Some (sf, k)).
      { apply lookup_zip_with_Some. exists sf, k. auto. }
      rewrite Hz. reflexivity. }
    rewrite Hflag. rewrite <- Hclean.
    split; [|split].
    + destruct (faceInvalid _ _ _ _ _ _ _ _ _); auto.
    + destruct (faceInvalid _ _ _ _ _ _ _ _ _); split; congruence.
    + intros Hmode Hzero.
      match goal with
      | |- valid_t ?mm ?i ?jj = _ =>
        destruct (valid_permitted mm i Hmode) as [_ Hv];
          rewrite (Hv jj), Hflag, Hzero
      end.
      reflexivity.
Qed.

End BuiltFlags.

Lemma non_manifold_faces_invalid_witness :
  wellShaped (numFaces fanAndTriangle) (buffers fanAndTriangle) = true
  /\ is_size_t (numFaces fanAndTriangle * numTimeSteps fanAndTriangle)
  /\ exists m',
      calculateHalfEdges fanAndTriangle = Ok m'
      /\ keyCount (halfEdges (topology m')) (2 ^ 32) = 3%nat
      /\ invalidFace m' 0 0 = Some 1
      /\ invalidFace m' 1 0 = Some 1
      /\ invalidFace m' 2 0 = Some 1
      /\ invalidFace m' 3 0 = Some 0
      /\ valid_t m' 3 0 = Some true.
Proof.
  assert (Hs : wellShaped (numFaces fanAndTriangle) (buffers fanAndTriangle) = true)
    by reflexivity.
  assert (Hz : is_size_t (numFaces fanAndTriangle * numTimeSteps fanAndTriangle))
    by (unfold is_size_t; simpl; lia).
  split; [exact Hs|]. split; [exact Hz|].
  destruct (non_manifold_faces_invalid fanAndTriangle Hs Hz)
    as (m' & Hm' & _ & Hinv & _ & _ & Hflags).
  exists m'. split; [exact Hm'|].
  assert (Heq : m' = scenarioBuilt fanAndTriangle)
    by (unfold scenarioBuilt; rewrite Hm'; reflexivity).
  subst m'.
  assert (Hc : keyCount (halfEdges (topology (scenarioBuilt fanAndTriangle))) (2 ^ 32)
               = 3%nat) by (vm_compute; reflexivity).
  split; [exact Hc|].
  assert (H3 : (2 < keyCount (halfEdges (topology (scenarioBuilt fanAndTriangle)))
                      (2 ^ 32))%nat) by (rewrite Hc; lia).
  assert (Hj : 0 <= 0 < numTimeSteps (scenarioBuilt fanAndTriangle))
    by (vm_compute; split; [discriminate | reflexivity]).
  assert (Hfan : forall g f e,
            halfEdges (topology (scenarioBuilt fanAndTriangle)) !! g = Some e ->
            HalfEdge.face e = f ->
            edgeKey (halfEdges (topology (scenarioBuilt fanAndTriangle))) g
            = Some (2 ^ 32) ->
            invalidFace (scenarioBuilt fanAndTriangle) (Z.of_nat f) 0 = Some 1).
  { intros g f e He <- Hk. exact (proj1 (Hinv _ _ _ 0 H3 He Hk Hj)). }
  split; [|split; [|split]].
  - apply (Hfan 0%nat 0%nat _ ltac:(vm_compute; reflexivity));
      vm_compute; reflexivity.
  - apply (Hfan 3%nat 1%nat _ ltac:(vm_compute; reflexivity));
      vm_compute; reflexivity.
  - apply (Hfan 6%nat 2%nat _ ltac:(vm_compute; reflexivity));
      vm_compute; reflexivity.
  - destruct (Hflags 3%nat 3%nat 9%nat 0 eq_refl eq_refl Hj)
      as (_ & Hzero & Hvalid).
    assert (Hflag : invalidFace (scenarioBuilt fanAndTriangle) (Z.of_nat 3) 0
                    = Some 0).
    { apply Hzero.
      split; [intros Hin; vm_compute in Hin; inversion Hin|].
      split; [vm_compute; lia|].
      split;
        [apply (bool_decide_unpack
                  (NoDup (take 3 (drop 9 (vertexIndices (buffers fanAndTriangle))))));
         vm_compute; exact I|].
      split.
      { intros v Hv. apply list_elem_of_In in Hv. vm_compute in Hv.
        change (numVertices fanAndTriangle) with 8.
        destruct Hv as [<-|[<-|[<-|[]]]]; lia. }
      split; [|intros Hmode; discriminate Hmode].
      intros g e K He Hf Hk.
      do 12 (destruct g as [|g];
             [vm_compute in He; injection He as <-;
              first [discriminate Hf
                    | vm_compute in Hk; injection Hk as <-;
                      apply Nat.leb_le; vm_compute; reflexivity]|]).
      vm_compute in He. discriminate He. }
    split; [exact Hflag|].
    apply Hvalid; [intros Hmode; discriminate Hmode | exact Hflag].
Defined.


Section BuiltValidity.

Context {PatchData : Type}.

(** The face-start table of a built mesh, as long as the half-edge count
    fits its 32-bit entries. *)
Lemma built_getHalfEdge (m m' : SubdivMesh PatchData) (f sf : nat) :
  calculateHalfEdges m = Ok m' ->
  prefixSums 0 (faceCounts (buffers m)) !! f = Some sf ->
  Z.of_nat sf < 2 ^ 32 ->
  getHalfEdge m' (Z.of_nat f) = Some sf.
Proof.
  unfold calculateHalfEdges.
  destruct (wellShaped (numFaces m) (buffers m)); [|discriminate].
  destruct (buildTopology m) as [t s] eqn:Hb. intros [= <-] Hsf Hlt.
  unfold buildTopology in Hb. injection Hb as <- <-.
  unfold getHalfEdge. cbn [topology faceStartEdge].
  rewrite Nat2Z.id, list_lookup_fmap, Hsf. simpl.
  unfold wrap. rewrite Z.mod_small by lia. rewrite Nat2Z.id. reflexivity.
Qed.

(** In a built mesh whose boundary mode allows no boundary faces, a face
    owning a half-edge whose key no other half-edge shares is reported
    invalid at every time step. *)
Lemma built_boundary_face_invalid (m m' : SubdivMesh PatchData)
  (K : Z) (g : nat) (e : HalfEdge.t) :
  calculateHalfEdges m = Ok m' ->
  Z.of_nat (sum_list (faceCounts (buffers m))) < 2 ^ 32 ->
  boundary m = RTC_BOUNDARY_NONE ->
  halfEdges (topology m') !! g = Some e ->
  edgeKey (halfEdges (topology m')) g = Some K ->
  keyCount (halfEdges (topology m')) K = 1%nat ->
  valid m' (Z.of_nat (HalfEdge.face e)) = Some false
  /\ forall j, valid_t m' (Z.of_nat (HalfEdge.face e)) j = Some false.
Proof.
  intros Hbuild Hfit Hmode He Hk Hcount.
  pose proof Hbuild as Hbuild'.
  unfold calculateHalfEdges in Hbuild'.
  destruct (wellShaped (numFaces m) (buffers m)) eqn:Hshape; [|discriminate].
  pose proof (wellShaped_vertexIndices _ _ Hshape) as Hlen.
  destruct (buildTopology m) as [t s] eqn:Hb. injection Hbuild' as Hm'.
  unfold buildTopology in Hb. injection Hb as Ht Hs.
  assert (Hhes : halfEdges (topology m')
                 = finishHalfEdges (fun i => getEdgeLevel m (Z.of_nat i))
                     (oppositeMap (runs (sortKeys (keyHalfEdges
                        (allocHalfEdges 0 0 (faceCounts (buffers m))
                           (vertexIndices (buffers m)))))))
                     (buildEdgeCreaseMap (buffers m))
                     (buildVertexCreaseMap (buffers m))
                     (allocHalfEdges 0 0 (faceCounts (buffers m))
                        (vertexIndices (buffers m)))).
  { rewrite <- Hm'. cbn [topology]. rewrite <- Ht. reflexivity. }
  assert (Hbnd : boundary m' = RTC_BOUNDARY_NONE).
  { rewrite <- Hm'. exact Hmode. }
  set (hes0 := allocHalfEdges 0 0 (faceCounts (buffers m))
                 (vertexIndices (buffers m))) in *.
  assert (Hborder : HalfEdge.isBorder (halfEdges (topology m')) g).
  { exists e. split; [exact He|].
    rewrite Hhes in He, Hk, Hcount.
    rewrite keyCount_finish in Hcount. rewrite edgeKey_finish in Hk.
    rewrite finishHalfEdges_lookup in He.
    destruct (hes0 !! g) as [e0|]; [|discriminate].
    injection He as <-. cbn [HalfEdge.opposite].
    apply (opposite_of_single hes0 K); assumption. }
  pose proof (lookup_lt_Some _ _ _ He) as Hg.
  rewrite Hhes, length_finishHalfEdges in Hg.
  unfold hes0 in Hg. rewrite length_allocHalfEdges in Hg by lia.
  destruct (position_in_face (faceCounts (buffers m)) 0 g Hg)
    as (fi & k & sf & j & Hkf & Hsf & Hj & Heq).
  simpl in Heq. subst g.
  destruct (allocHalfEdges_lookup (faceCounts (buffers m)) 0 0
              (vertexIndices (buffers m)) fi k j sf ltac:(lia) Hkf Hj Hsf)
    as (e0 & He0 & Hf0 & _).
  replace (sf - 0 + j)%nat with (sf + j)%nat in He0 by lia.
  assert (Hface : HalfEdge.face e = fi).
  { rewrite Hhes, finishHalfEdges_lookup in He. fold hes0 in He0.
    rewrite He0 in He. injection He as <-. exact Hf0. }
  rewrite Hface.
  pose proof (built_getHalfEdge m m' fi sf Hbuild Hsf ltac:(lia)) as Hstart.
  assert (Hwalk : HalfEdge.walk (halfEdges (topology m')) j sf = Some (sf + j)%nat).
  { rewrite Hhes. unfold hes0.
    replace sf with (sf + 0)%nat at 1 by lia.
    rewrite (built_walk (buffers m) _ _ _ _ fi k sf Hlen Hkf Hsf j 0%nat) by lia.
    rewrite Nat.add_0_l, Nat.mod_small by lia. reflexivity. }
  pose proof (faceHasBorder_true _ sf j (sf + j)%nat Hwalk Hborder) as Hfb.
  unfold valid, valid_t, faceBorderTest.
  destruct (decide (boundary m' = RTC_BOUNDARY_NONE)); [|contradiction].
  rewrite Hstart, Hfb. split; [reflexivity | intros; reflexivity].
Qed.

End BuiltValidity.

Section CacheClaims.

Context {PatchData : Type}.
Variable avx : bool.
Variable engine : Topology -> Buffers -> Z -> Z -> Z -> option PatchData.

Lemma entryIndex_storeEntry (m : SubdivMesh PatchData) (t : Z) (idx : nat)
  (e : CacheEntry PatchData) (prim timestep slot : Z) :
  entryIndex avx (storeEntry m t idx e) prim timestep slot
  = entryIndex avx m prim timestep slot.
Proof. reflexivity. Qed.

(** Reading back the entry that was just stored. *)
Lemma lookupEntry_storeEntry (m : SubdivMesh PatchData) (prim timestep slot : Z)
  (idx : nat) (e0 e : CacheEntry PatchData) :
  entryIndex avx m prim timestep slot = Some idx ->
  lookupEntry avx m prim timestep slot = Some e0 ->
  lookupEntry avx (storeEntry m timestep idx e) prim timestep slot = Some e.
Proof.
  unfold lookupEntry. rewrite entryIndex_storeEntry. intros -> Hrow.
  cbn [storeEntry vertex_buffer_tags].
  rewrite list_lookup_alter.
  destruct (vertex_buffer_tags m !! Z.to_nat timestep) as [row|]; [|discriminate].
  simpl. rewrite decide_True by reflexivity.
  apply list_lookup_insert_eq. apply lookup_lt_Some in Hrow. exact Hrow.
Qed.

(** A fetch of an entry that carries the current generation is a hit. *)
Lemma fetch_hit (st : MeshState PatchData) (prim timestep slot : Z)
  (e : CacheEntry PatchData) :
  lookupEntry avx (mesh st) prim timestep slot = Some e ->
  tag e = levelGeneration (cache st) ->
  fetch avx engine st prim timestep slot = Some (data e, st).
Proof.
  intros He Htag. unfold fetch. rewrite He.
  destruct (entryIndex avx (mesh st) prim timestep slot) as [idx|] eqn:Hidx.
  - rewrite Htag, Nat.eqb_refl. reflexivity.
  - unfold lookupEntry in He. rewrite Hidx in He. discriminate.
Qed.


(** C6, as the cache has it: when a fetch of a key has returned evaluated
    data, the next fetch of the same key, with no invalidation in between,
    returns the same data and leaves the whole state as it is, the count of
    engine calls included: the entry already carries the current
    generation. *)
Theorem fetch_idempotent (st st1 : MeshState PatchData) (prim timestep slot : Z)
  (d : PatchData) :
  fetch avx engine st prim timestep slot = Some (Some d, st1) ->
  fetch avx engine st1 prim timestep slot = Some (Some d, st1)
  /\ (exists e, lookupEntry avx (mesh st1) prim timestep slot = Some e
                /\ tag e = levelGeneration (cache st1)
                /\ data e = Some d)
  /\ forall r st2,
      fetch avx engine st1 prim timestep slot = Some (r, st2) ->
      r = Some d /\ st2 = st1
      /\ recomputations (cache st2) = recomputations (cache st1).
Proof.
  intros Hfetch.
  assert (Hentry : exists e, lookupEntry avx (mesh st1) prim timestep slot = Some e
                             /\ tag e = levelGeneration (cache st1)
                             /\ data e = Some d).
  { unfold fetch in Hfetch.
    destruct (entryIndex avx (mesh st) prim timestep slot) as [idx|] eqn:Hidx;
      [|discriminate].
    destruct (lookupEntry avx (mesh st) prim timestep slot) as [e|] eqn:He;
      [|discriminate].
    destruct (Nat.eqb_spec (tag e) (levelGeneration (cache st))) as [Htag|Htag].
    - injection Hfetch as Hd <-. exists e. repeat split; assumption.
    - destruct (engine (topology (mesh st)) (buffers (mesh st)) prim timestep slot)
        as [d'|]; [|discriminate].
      injection Hfetch as -> <-.
      exists (mkCacheEntry (levelGeneration (cache st)) (Some d)).
      cbn [mesh cache]. split; [|split; reflexivity].
      apply (lookupEntry_storeEntry _ _ _ _ _ e); assumption. }
  destruct Hentry as (e & He & Htag & Hd).
  pose proof (fetch_hit st1 prim timestep slot e He Htag) as Hhit.
  rewrite Hd in Hhit.
  split; [exact Hhit|]. split; [exists e; repeat split; assumption|].
  intros r st2 H2. rewrite Hhit in H2. injection H2 as <- <-.
  repeat split; reflexivity.
Qed.

(** When the engine fails the entry stays stale and the next fetch calls the
    engine again. *)
Lemma fetch_failed_retries (st st1 : MeshState PatchData) (prim timestep slot : Z)
  (e : CacheEntry PatchData) :
  lookupEntry avx (mesh st) prim timestep slot = Some e ->
  tag e <> levelGeneration (cache st) ->
  engine (topology (mesh st)) (buffers (mesh st)) prim timestep slot = None ->
  fetch avx engine st prim timestep slot = Some (None, st1) ->
  exists st2,
    fetch avx engine st1 prim timestep slot = Some (None, st2)
    /\ recomputations (cache st2) = S (recomputations (cache st1)).
Proof.
  intros He Htag Heng Hfetch.
  unfold fetch in Hfetch. rewrite He in Hfetch.
  destruct (entryIndex avx (mesh st) prim timestep slot) as [idx|] eqn:Hidx;
    [|discriminate].
  apply Nat.eqb_neq in Htag. rewrite Htag, Heng in Hfetch.
  injection Hfetch as <-.
  unfold fetch. cbn [mesh cache countRecomputation levelGeneration].
  rewrite Hidx, He, Htag, Heng. eexists. split; reflexivity.
Qed.

End CacheClaims.

Section LevelUpdate.

Context {PatchData : Type}.










Variable avx : bool.
Variable engine : Topology -> Buffers -> Z -> Z -> Z -> option PatchData.


End LevelUpdate.



Lemma fetch_idempotent_witness :
  exists st1,
    fetch false scenarioEngine (scenarioState (twoTriangles RTC_BOUNDARY_PERMITTED))
      1 0 0 = Some (Some tt, st1)
    /\ fetch false scenarioEngine st1 1 0 0 = Some (Some tt, st1)
    /\ recomputations (cache st1) = 1%nat.
Proof.
  eexists.
  split; [vm_compute; reflexivity|].
  split; [|reflexivity].
  eapply (fetch_idempotent false scenarioEngine
            (scenarioState (twoTriangles RTC_BOUNDARY_PERMITTED))).
  vm_compute. reflexivity.
Defined.

(** C6 as stated fails when the engine fails: the entry stays stale, so the
    second of two consecutive fetches calls the engine again. *)
Lemma fetch_idempotent_counterexample :
  exists st1 st2,
    fetch false scenarioFailingEngine
      (scenarioState (twoTriangles RTC_BOUNDARY_PERMITTED)) 1 0 0 = Some (None, st1)
    /\ fetch false scenarioFailingEngine st1 1 0 0 = Some (None, st2)
    /\ recomputations (cache st1) = 1%nat
    /\ recomputations (cache st2) = 2%nat
    /\ st2 <> st1
    /\ (exists e, lookupEntry false (mesh st1) 1 0 0 = Some e
                  /\ tag e <> levelGeneration (cache st1)).
Proof.
  eexists. eexists.
  split; [vm_compute; reflexivity|].
  split; [vm_compute; reflexivity|].
  split; [reflexivity|]. split; [reflexivity|].
  split; [intros H; discriminate H|].
  eexists. split; [vm_compute; reflexivity|].
  cbn. lia.
Qed.


Section Scenarios.

(** The float literals of the mesh are binary32 values. *)
Example float_literals_binary32 :
  forallb Float32.is_float32
    [Float32.one; Float32.c4096; Float32.minus_one; Float32.c5000; Float32.c7_5]
  = true.
Proof. vm_compute. reflexivity. Qed.

(** Two triangles sharing an edge: six half-edges, the two along the shared
    edge are twins, the other four are boundary, and both faces are valid
    when boundaries are permitted. *)
Example two_triangles_scenario :
  exists m,
    calculateHalfEdges (twoTriangles RTC_BOUNDARY_PERMITTED) = Ok m
    /\ numHalfEdges (topology m) = 6
    /\ HalfEdge.opposite <$> halfEdges (topology m)
       = [None; Some 3%nat; None; Some 1%nat; None; None]
    /\ valid m 0 = Some true
    /\ valid m 1 = Some true.
Proof.
  eexists. split; [vm_compute; reflexivity|].
  repeat split; vm_compute; reflexivity.
Qed.

(** A quad in the hole buffer is not valid, and still counted as a face. *)
Example quad_hole_scenario :
  exists m,
    calculateHalfEdges quadHole = Ok m
    /\ valid m 0 = Some false
    /\ valid_t m 0 0 = Some false
    /\ size m = 1.
Proof.
  eexists. split; [vm_compute; reflexivity|].
  repeat split; vm_compute; reflexivity.
Qed.

(** Buffers whose shapes do not fit are refused. *)
Example shape_mismatch_scenario :
  calculateHalfEdges
    (scenarioMesh 1 3 RTC_BOUNDARY_PERMITTED (scenarioBuffers [3] [0; 1] []))
  = Err BufferShapeMismatch.
Proof. reflexivity. Qed.

End Scenarios.

(** * Further properties of the header *)

Section EdgeKeyOrder.

Local Arguments Z.pow : simpl never.

(** Splitting [hi * 2^32 + lo] back into its halves. *)
Lemma key_halves (hi lo : Z) :
  0 <= hi -> 0 <= lo < 2 ^ 32 ->
  Z.shiftr (hi * 2 ^ 32 + lo) 32 = hi
  /\ Z.land (hi * 2 ^ 32 + lo) (Z.ones 32) = lo.
Proof.
  intros Hhi Hlo. split.
  - rewrite Z.shiftr_div_pow2 by lia.
    rewrite Z.div_add_l by lia. rewrite Z.div_small by lia. lia.
  - rewrite Z.land_ones by lia.
    rewrite Z.add_comm, Z.mod_add by lia. apply Z.mod_small; lia.
Qed.

(** X1: edge keys compare like the pairs (larger end point, smaller end
    point) in lexicographic order. *)
Theorem edge_key_lex_order (a b c d : Z) :
  is_uint32 a -> is_uint32 b -> is_uint32 c -> is_uint32 d ->
  Edge.to_uint64 (Edge.Edge a b) < Edge.to_uint64 (Edge.Edge c d)
  <-> Z.max a b < Z.max c d
      \/ (Z.max a b = Z.max c d /\ Z.min a b < Z.min c d).
Proof.
  intros Ha Hb Hc Hd. rewrite !to_uint64_arith by assumption.
  unfold is_uint32 in *.
  assert (0 <= Z.min a b < 2 ^ 32) by lia.
  assert (0 <= Z.min c d < 2 ^ 32) by lia.
  assert (0 <= Z.max a b) by lia.
  assert (0 <= Z.max c d) by lia.
  split; intros Hlt; nia.
Qed.

Lemma edge_key_lex_order_witness :
  is_uint32 9 /\ is_uint32 2 /\ is_uint32 5
  /\ Edge.to_uint64 (Edge.Edge 2 5) < Edge.to_uint64 (Edge.Edge 9 2).
Proof.
  assert (H9 : is_uint32 9) by (unfold is_uint32; lia).
  assert (H2 : is_uint32 2) by (unfold is_uint32; lia).
  assert (H5 : is_uint32 5) by (unfold is_uint32; lia).
  split; [exact H9|]. split; [exact H2|]. split; [exact H5|].
  apply (edge_key_lex_order 2 5 9 2 H2 H5 H9 H2). left. lia.
Defined.

(** X2: the 64-bit values that are edge keys are exactly those whose upper
    half is not below their lower half; such a value is the key of the edge
    between its two halves. *)
Theorem edge_key_image (k : Z) :
  is_uint64 k ->
  (exists a b, is_uint32 a /\ is_uint32 b /\ Edge.to_uint64 (Edge.Edge a b) = k)
  <-> Z.land k (Z.ones 32) <= Z.shiftr k 32.
Proof.
  unfold is_uint64. intros Hk. split.
  - intros (a & b & Ha & Hb & <-).
    rewrite to_uint64_arith by assumption. unfold is_uint32 in *.
    destruct (key_halves (Z.max a b) (Z.min a b)) as [-> ->]; lia.
  - intros Hle.
    assert (H64 : 2 ^ 64 = 2 ^ 32 * 2 ^ 32) by reflexivity.
    rewrite Z.shiftr_div_pow2 in * by lia.
    rewrite Z.land_ones in * by lia.
    pose proof (Z.div_mod k (2 ^ 32) ltac:(lia)) as Hdm.
    pose proof (Z.mod_pos_bound k (2 ^ 32) ltac:(lia)) as Hlo.
    assert (Hhi : 0 <= k / 2 ^ 32 < 2 ^ 32).
    { split; [apply Z.div_pos; lia|]. apply Z.div_lt_upper_bound; lia. }
    exists (k / 2 ^ 32), (k mod 2 ^ 32).
    split; [exact Hhi|]. split; [exact Hlo|].
    rewrite to_uint64_arith by assumption.
    rewrite Z.max_l, Z.min_r by lia. lia.
Qed.

Lemma edge_key_image_witness :
  is_uint64 (3 * 2 ^ 32 + 1)
  /\ exists a b, is_uint32 a /\ is_uint32 b
                 /\ Edge.to_uint64 (Edge.Edge a b) = 3 * 2 ^ 32 + 1.
Proof.
  assert (Hk : is_uint64 (3 * 2 ^ 32 + 1)) by (unfold is_uint64; lia).
  split; [exact Hk|].
  apply (edge_key_image (3 * 2 ^ 32 + 1) Hk). vm_compute. discriminate.
Defined.

(** X3: [operator<] of the sort entries is a strict weak order: nothing is
    below itself, it never holds both ways, it is transitive, and entries
    that are not ordered either way are those with the same key, whatever
    half-edge they point to. *)
Theorem key_half_edge_strict_weak_order :
  (forall e, KeyHalfEdge.lt e e = false)
  /\ (forall e0 e1, KeyHalfEdge.lt e0 e1 = true -> KeyHalfEdge.lt e1 e0 = false)
  /\ (forall e0 e1 e2,
        KeyHalfEdge.lt e0 e1 = true -> KeyHalfEdge.lt e1 e2 = true ->
        KeyHalfEdge.lt e0 e2 = true)
  /\ (forall e0 e1,
        KeyHalfEdge.lt e0 e1 = false /\ KeyHalfEdge.lt e1 e0 = false
        <-> KeyHalfEdge.to_uint64 e0 = KeyHalfEdge.to_uint64 e1).
Proof.
  unfold KeyHalfEdge.lt, KeyHalfEdge.to_uint64.
  repeat split.
  - intros e. apply Z.ltb_irrefl.
  - intros e0 e1 H. apply Z.ltb_lt in H. apply Z.ltb_ge. lia.
  - intros e0 e1 e2 H1 H2. apply Z.ltb_lt in H1, H2. apply Z.ltb_lt. lia.
  - intros [H1 H2]. apply Z.ltb_ge in H1, H2. lia.
  - apply Z.ltb_ge. lia.
  - apply Z.ltb_ge. lia.
Qed.

(** X4: two sort entries keyed by edges are left unordered by [operator<]
    exactly when the edges join the same two vertices, in either direction;
    so a sort by [operator<] puts the half-edges of one undirected edge, and
    only those, next to each other. *)
Theorem key_half_edge_equiv_same_edge (a b c d : Z) (p q : nat) :
  is_uint32 a -> is_uint32 b -> is_uint32 c -> is_uint32 d ->
  KeyHalfEdge.lt (KeyHalfEdge.mk (Edge.to_uint64 (Edge.Edge a b)) p)
                 (KeyHalfEdge.mk (Edge.to_uint64 (Edge.Edge c d)) q) = false
  /\ KeyHalfEdge.lt (KeyHalfEdge.mk (Edge.to_uint64 (Edge.Edge c d)) q)
                    (KeyHalfEdge.mk (Edge.to_uint64 (Edge.Edge a b)) p) = false
  <-> (a = c /\ b = d) \/ (a = d /\ b = c).
Proof.
  intros Ha Hb Hc Hd. unfold KeyHalfEdge.lt. cbn [KeyHalfEdge.key].
  rewrite !Z.ltb_ge, !to_uint64_arith by assumption.
  unfold is_uint32 in *.
  assert (0 <= Z.min a b < 2 ^ 32) by lia.
  assert (0 <= Z.min c d < 2 ^ 32) by lia.
  assert (0 <= Z.max a b) by lia.
  assert (0 <= Z.max c d) by lia.
  split.
  - intros [Hle1 Hle2].
    assert (Z.max a b = Z.max c d /\ Z.min a b = Z.min c d) by nia. lia.
  - intros [[-> ->]|[-> ->]]; [lia|].
    rewrite (Z.max_comm d c), (Z.min_comm d c). lia.
Qed.

Lemma key_half_edge_equiv_same_edge_witness :
  is_uint32 1 /\ is_uint32 2
  /\ KeyHalfEdge.lt (KeyHalfEdge.mk (Edge.to_uint64 (Edge.Edge 1 2)) 1)
                    (KeyHalfEdge.mk (Edge.to_uint64 (Edge.Edge 2 1)) 3) = false.
Proof.
  assert (H1 : is_uint32 1) by (unfold is_uint32; lia).
  assert (H2 : is_uint32 2) by (unfold is_uint32; lia).
  split; [exact H1|]. split; [exact H2|].
  apply (key_half_edge_equiv_same_edge 1 2 2 1 1%nat 3%nat H1 H2 H2 H1).
  right. split; reflexivity.
Defined.

End EdgeKeyOrder.

Section SlotLayout.

Local Arguments Z.pow : simpl never.

Lemma slots4_bounds (stride : Z) :
  0 <= stride -> stride + 15 < 2 ^ 64 ->
  16 * numInterpolationSlots4 stride <= stride + 15
                                     < 16 * numInterpolationSlots4 stride + 16.
Proof.
  intros H0 H1. unfold numInterpolationSlots4, size_add, wrap.
  rewrite Z.mod_small by lia.
  pose proof (Z.div_mod (stride + 15) 16 ltac:(lia)).
  pose proof (Z.mod_pos_bound (stride + 15) 16 ltac:(lia)). lia.
Qed.

Lemma slots8_bounds (stride : Z) :
  0 <= stride -> stride + 31 < 2 ^ 64 ->
  32 * numInterpolationSlots8 stride <= stride + 31
                                     < 32 * numInterpolationSlots8 stride + 32.
Proof.
  intros H0 H1. unfold numInterpolationSlots8, size_add, wrap.
  rewrite Z.mod_small by lia.
  pose proof (Z.div_mod (stride + 31) 32 ltac:(lia)).
  pose proof (Z.mod_pos_bound (stride + 31) 32 ltac:(lia)). lia.
Qed.

(** X5: every linear index is the index of exactly the slot obtained by
    dividing it by the slot count: primitive [idx / slots], slot
    [idx mod slots]. *)
Theorem interpolationSlot_decode (avx : bool) (stride idx : Z) :
  is_size_t idx -> 0 < slotsPerPrimitive avx stride ->
  interpolationSlot avx (idx / slotsPerPrimitive avx stride)
    (idx mod slotsPerPrimitive avx stride) stride = Some idx.
Proof.
  unfold is_size_t. intros Hidx Hpos.
  pose proof (Z.mod_pos_bound idx _ Hpos) as Hm.
  rewrite interpolationSlot_wrap by lia.
  rewrite <- Z.div_mod by lia.
  unfold wrap. rewrite Z.mod_small by lia. reflexivity.
Qed.

Lemma interpolationSlot_decode_witness :
  is_size_t 17 /\ 0 < slotsPerPrimitive false 40
  /\ interpolationSlot false 5 2 40 = Some 17.
Proof.
  assert (H17 : is_size_t 17) by (unfold is_size_t; lia).
  assert (Hpos : 0 < slotsPerPrimitive false 40) by (vm_compute; reflexivity).
  split; [exact H17|]. split; [exact Hpos|].
  exact (interpolationSlot_decode false 40 17 H17 Hpos).
Defined.

(** X6: with [n] primitives whose [slots * n] entries fit a [size_t], the
    index of every slot of every primitive below [n] lies inside a table of
    [slots * n] entries. *)
Theorem interpolationSlot_in_table (avx : bool) (stride n prim slot idx : Z) :
  0 <= prim < n -> 0 <= slot ->
  slotsPerPrimitive avx stride * n < 2 ^ 64 ->
  interpolationSlot avx prim slot stride = Some idx ->
  0 <= idx < slotsPerPrimitive avx stride * n.
Proof.
  intros Hp Hs Hn Hidx.
  assert (Hlt : slot < slotsPerPrimitive avx stride).
  { unfold interpolationSlot in Hidx.
    destruct (Z.ltb_spec slot (slotsPerPrimitive avx stride));
      [assumption | discriminate]. }
  rewrite interpolationSlot_wrap in Hidx by assumption.
  injection Hidx as <-. unfold wrap.
  rewrite Z.mod_small by nia. nia.
Qed.

Lemma interpolationSlot_in_table_witness :
  interpolationSlot false 5 2 40 = Some 17 /\ 0 <= 17 < slotsPerPrimitive false 40 * 6.
Proof.
  assert (Hidx : interpolationSlot false 5 2 40 = Some 17) by reflexivity.
  split; [exact Hidx|].
  apply (interpolationSlot_in_table false 40 6 5 2 17); try lia; try exact Hidx.
  vm_compute. reflexivity.
Defined.

(** X7: a stride has a slot exactly when it is not zero: for a stride of
    zero the slot count is zero and [interpolationSlot] trips its assertion
    for every primitive and slot, for any other stride slot 0 exists. *)
Theorem interpolationSlot_exists_iff (avx : bool) (stride : Z) :
  0 <= stride -> stride + 31 < 2 ^ 64 ->
  (0 < slotsPerPrimitive avx stride <-> 0 < stride)
  /\ ((exists prim slot, 0 <= slot /\ interpolationSlot avx prim slot stride <> None)
      <-> 0 < stride).
Proof.
  intros H0 H1.
  assert (Hpos : 0 < slotsPerPrimitive avx stride <-> 0 < stride).
  { pose proof (slots4_bounds stride H0 ltac:(lia)).
    pose proof (slots8_bounds stride H0 H1).
    unfold slotsPerPrimitive. destruct avx; lia. }
  split; [exact Hpos|]. split.
  - intros (prim & slot & Hs & Hsome). apply Hpos.
    unfold interpolationSlot in Hsome.
    destruct (Z.ltb_spec slot (slotsPerPrimitive avx stride)); [lia|].
    contradiction.
  - intros Hst. exists 0, 0. split; [lia|].
    rewrite interpolationSlot_wrap by (apply Hpos; exact Hst). discriminate.
Qed.

Lemma interpolationSlot_exists_iff_witness :
  0 <= 0 /\ 0 + 31 < 2 ^ 64
  /\ ~ (exists prim slot, 0 <= slot /\ interpolationSlot true prim slot 0 <> None).
Proof.
  assert (H0 : 0 <= 0) by lia.
  assert (H1 : 0 + 31 < 2 ^ 64) by lia.
  split; [exact H0|]. split; [exact H1|].
  destruct (interpolationSlot_exists_iff true 0 H0 H1) as [_ [Hsome _]].
  intros Hex. specialize (Hsome Hex). lia.
Defined.

(** X8: a larger stride never needs fewer slots, for either width. *)
Theorem slot_counts_monotone (s1 s2 : Z) :
  0 <= s1 <= s2 -> s2 + 31 < 2 ^ 64 ->
  numInterpolationSlots4 s1 <= numInterpolationSlots4 s2
  /\ numInterpolationSlots8 s1 <= numInterpolationSlots8 s2.
Proof.
  intros Hs Hfit.
  pose proof (slots4_bounds s1 ltac:(lia) ltac:(lia)).
  pose proof (slots4_bounds s2 ltac:(lia) ltac:(lia)).
  pose proof (slots8_bounds s1 ltac:(lia) ltac:(lia)).
  pose proof (slots8_bounds s2 ltac:(lia) ltac:(lia)).
  split; lia.
Qed.

Lemma slot_counts_monotone_witness :
  0 <= 17 <= 40 /\ 40 + 31 < 2 ^ 64
  /\ numInterpolationSlots4 17 <= numInterpolationSlots4 40
  /\ numInterpolationSlots8 17 <= numInterpolationSlots8 40.
Proof.
  assert (Hs : 0 <= 17 <= 40) by lia.
  assert (Hf : 40 + 31 < 2 ^ 64) by lia.
  destruct (slot_counts_monotone 17 40 Hs Hf) as (H4 & H8).
  split; [exact Hs|]. split; [exact Hf|]. split; [exact H4 | exact H8].
Defined.

(** X9: for one stride the wide engine never needs more slots than the
    narrow one, and never fewer than half as many. *)
Theorem slot_counts_widths (stride : Z) :
  0 <= stride -> stride + 31 < 2 ^ 64 ->
  numInterpolationSlots8 stride <= numInterpolationSlots4 stride
  /\ numInterpolationSlots4 stride <= 2 * numInterpolationSlots8 stride.
Proof.
  intros H0 Hfit.
  pose proof (slots4_bounds stride H0 ltac:(lia)).
  pose proof (slots8_bounds stride H0 Hfit).
  split; lia.
Qed.

Lemma slot_counts_widths_witness :
  0 <= 40 /\ 40 + 31 < 2 ^ 64
  /\ numInterpolationSlots8 40 <= numInterpolationSlots4 40
  /\ numInterpolationSlots4 40 <= 2 * numInterpolationSlots8 40.
Proof.
  assert (H0 : 0 <= 40) by lia.
  assert (Hf : 40 + 31 < 2 ^ 64) by lia.
  destruct (slot_counts_widths 40 H0 Hf) as (Hle & Hge).
  split; [exact H0|]. split; [exact Hf|]. split; [exact Hle | exact Hge].
Defined.

(** X10: as long as nothing wraps around, the linear index orders the cache
    entries primitive-major: one entry lies before another exactly when its
    primitive is smaller or, for the same primitive, its slot is. *)
Theorem interpolationSlot_order (avx : bool) (stride p s i p' s' i' : Z) :
  0 <= p -> 0 <= p' -> 0 <= s -> 0 <= s' ->
  slotsPerPrimitive avx stride * p + s < 2 ^ 64 ->
  slotsPerPrimitive avx stride * p' + s' < 2 ^ 64 ->
  interpolationSlot avx p s stride = Some i ->
  interpolationSlot avx p' s' stride = Some i' ->
  (i < i' <-> p < p' \/ (p = p' /\ s < s')).
Proof.
  intros Hp Hp' Hs Hs' Hfit Hfit' H1 H2.
  assert (Hlt : s < slotsPerPrimitive avx stride).
  { unfold interpolationSlot in H1.
    destruct (Z.ltb_spec s (slotsPerPrimitive avx stride));
      [assumption | discriminate]. }
  assert (Hlt' : s' < slotsPerPrimitive avx stride).
  { unfold interpolationSlot in H2.
    destruct (Z.ltb_spec s' (slotsPerPrimitive avx stride));
      [assumption | discriminate]. }
  rewrite interpolationSlot_wrap in H1, H2 by assumption.
  unfold wrap in H1, H2.
  rewrite Z.mod_small in H1 by nia. rewrite Z.mod_small in H2 by nia.
  injection H1 as <-. injection H2 as <-.
  split; intros H; nia.
Qed.

Lemma interpolationSlot_order_witness :
  interpolationSlot false 4 2 40 = Some 14
  /\ interpolationSlot false 5 0 40 = Some 15
  /\ 14 < 15.
Proof.
  assert (H1 : interpolationSlot false 4 2 40 = Some 14) by reflexivity.
  assert (H2 : interpolationSlot false 5 0 40 = Some 15) by reflexivity.
  split; [exact H1|]. split; [exact H2|].
  apply (interpolationSlot_order false 40 4 2 14 5 0 15); try lia;
    try assumption; vm_compute; reflexivity.
Defined.

End SlotLayout.

Section ValidityFlags.

Context {PatchData : Type}.

Local Arguments Z.pow : simpl never.

Lemma flag_index (i j nt : Z) :
  0 <= i -> 0 <= j -> 0 <= nt -> i * nt + j < 2 ^ 64 ->
  Z.to_nat (size_add (size_mul i nt) j) = Z.to_nat (i * nt + j).
Proof.
  intros Hi Hj Hnt Hfit. unfold size_add, size_mul, wrap.
  rewrite Z.add_mod_idemp_l by lia.
  rewrite Z.mod_small by nia. reflexivity.
Qed.

(** X11: when the flag table holds [numFaces * numTimeSteps] entries (a
    count that fits a [size_t]), [invalidFace(i, j)] reads inside the table
    for every face below [numFaces] and every time step below
    [numTimeSteps]. *)
Theorem invalidFace_in_bounds (m : SubdivMesh PatchData) (i j : Z) :
  0 <= i < numFaces m -> 0 <= j < numTimeSteps m ->
  Z.of_nat (length (invalid_face (topology m))) = numFaces m * numTimeSteps m ->
  numFaces m * numTimeSteps m < 2 ^ 64 ->
  exists c, invalidFace m i j = Some c.
Proof.
  intros Hi Hj Hlen Hfit.
  assert (Hidx : i * numTimeSteps m + j < numFaces m * numTimeSteps m) by nia.
  unfold invalidFace. rewrite flag_index by lia.
  apply lookup_lt_is_Some_2. nia.
Qed.

Lemma to_char_id (c : Z) : is_char c -> to_char c = c.
Proof.
  unfold is_char, to_char. intros Hc. rewrite Z.mod_small by lia. lia.
Qed.

Lemma to_char_range (c : Z) : is_char (to_char c).
Proof.
  unfold is_char, to_char.
  pose proof (Z.mod_pos_bound (c + 128) 256 ltac:(lia)). lia.
Qed.

Lemma to_char_zero (c : Z) : to_char c = 0 <-> c mod 256 = 0.
Proof.
  unfold to_char.
  pose proof (Z.mod_pos_bound (c + 128) 256 ltac:(lia)) as Hb.
  pose proof (Z.mod_pos_bound c 256 ltac:(lia)) as Hc.
  pose proof (Z.div_mod (c + 128) 256 ltac:(lia)) as H1.
  pose proof (Z.div_mod c 256 ltac:(lia)) as H2.
  split; intros H; lia.
Qed.

Lemma invalidFace_write_flag (m m' : SubdivMesh PatchData) (i j c : Z) :
  setInvalidFace m i j c = Some m' ->
  invalidFace m' i j = Some (to_char c).
Proof.
  unfold setInvalidFace, invalidFace.
  destruct (Nat.ltb_spec
              (Z.to_nat (size_add (size_mul i (numTimeSteps m)) j))
              (length (invalid_face (topology m)))) as [Hlt|]; [|discriminate].
  intros [= <-]. cbn [topology invalid_face numTimeSteps].
  apply list_lookup_insert_eq. exact Hlt.
Qed.

(** X12: in a flag table of [numFaces * numTimeSteps] entries (a count
    that fits a [size_t]) a write through [invalidFace(i, j)] succeeds for
    every face below [numFaces] and time step below [numTimeSteps] and keeps
    the size of the table; the flag read back is the value written
    converted to [char], hence the value itself when it is a [char], and it
    is zero exactly when the value written is a multiple of 256. *)
Theorem invalidFace_write_read (m : SubdivMesh PatchData) (i j c : Z) :
  0 <= i < numFaces m -> 0 <= j < numTimeSteps m ->
  Z.of_nat (length (invalid_face (topology m))) = numFaces m * numTimeSteps m ->
  numFaces m * numTimeSteps m < 2 ^ 64 ->
  exists m',
    setInvalidFace m i j c = Some m'
    /\ invalidFace m' i j = Some (to_char c)
    /\ (is_char c -> invalidFace m' i j = Some c)
    /\ (to_char c = 0 <-> c mod 256 = 0)
    /\ length (invalid_face (topology m')) = length (invalid_face (topology m)).
Proof.
  intros Hi Hj Hlen Hfit.
  assert (Hidx : i * numTimeSteps m + j < numFaces m * numTimeSteps m) by nia.
  destruct (setInvalidFace m i j c) as [m'|] eqn:Hset.
  - exists m'. split; [reflexivity|].
    pose proof (invalidFace_write_flag m m' i j c Hset) as Hread.
    split; [exact Hread|].
    split; [intros Hc; rewrite Hread, (to_char_id c Hc); reflexivity|].
    split; [apply to_char_zero|].
    unfold setInvalidFace in Hset.
    destruct (_ <? _)%nat; [|discriminate]. injection Hset as <-.
    cbn [topology invalid_face]. apply length_insert.
  - exfalso. unfold setInvalidFace in Hset.
    rewrite flag_index in Hset by lia.
    destruct (Nat.ltb_spec (Z.to_nat (i * numTimeSteps m + j))
                (length (invalid_face (topology m)))); [discriminate|]. nia.
Qed.

(** X13: writing the flag of one (face, time step) pair leaves the flag of
    every other pair as it was, for time steps below [numTimeSteps] and
    indices that do not wrap around. *)
Theorem invalidFace_write_other (m m' : SubdivMesh PatchData) (i j c i' j' : Z) :
  0 <= i -> 0 <= i' ->
  0 <= j < numTimeSteps m -> 0 <= j' < numTimeSteps m ->
  i * numTimeSteps m + j < 2 ^ 64 -> i' * numTimeSteps m + j' < 2 ^ 64 ->
  (i, j) <> (i', j') ->
  setInvalidFace m i j c = Some m' ->
  invalidFace m' i' j' = invalidFace m i' j'.
Proof.
  intros Hi Hi' Hj Hj' Hfit Hfit' Hne.
  unfold setInvalidFace, invalidFace.
  destruct (Nat.ltb_spec
              (Z.to_nat (size_add (size_mul i (numTimeSteps m)) j))
              (length (invalid_face (topology m)))) as [Hlt|]; [|discriminate].
  intros [= <-]. cbn [topology invalid_face numTimeSteps].
  apply list_lookup_insert_ne.
  rewrite !flag_index by lia.
  intros Heq. apply Z2Nat.inj in Heq; [|nia|nia].
  apply Hne.
  assert (i = i') by nia. subst i'.
  f_equal. lia.
Qed.

(** X15: the time step is not checked against [numTimeSteps]: the flag
    read for face [i] at time step [numTimeSteps] is the flag of face
    [i + 1] at time step 0. *)
Theorem invalidFace_time_step_overrun (m : SubdivMesh PatchData) (i : Z) :
  0 <= i -> 0 <= numTimeSteps m ->
  (i + 1) * numTimeSteps m < 2 ^ 64 ->
  invalidFace m i (numTimeSteps m) = invalidFace m (i + 1) 0.
Proof.
  intros Hi Hnt Hfit. unfold invalidFace.
  rewrite !flag_index by nia. do 2 f_equal. lia.
Qed.

End ValidityFlags.

Lemma invalidFace_in_bounds_witness :
  exists c, invalidFace scenarioFlags 1 1 = Some c.
Proof.
  apply (invalidFace_in_bounds scenarioFlags 1 1); simpl; try lia; reflexivity.
Defined.


Lemma invalidFace_write_other_witness :
  exists m', setInvalidFace scenarioFlags 1 1 1 = Some m'
             /\ invalidFace m' 1 0 = invalidFace scenarioFlags 1 0.
Proof.
  eexists. split; [reflexivity|].
  apply (invalidFace_write_other scenarioFlags _ 1 1 1 1 0); simpl; try lia;
    try reflexivity.
  intros Heq. discriminate Heq.
Defined.

Lemma invalidFace_time_step_overrun_witness :
  invalidFace scenarioFlags 0 2 = invalidFace scenarioFlags 1 0.
Proof.
  apply (invalidFace_time_step_overrun scenarioFlags 0); simpl; lia.
Defined.

Lemma invalidFace_write_read_witness :
  exists m', setInvalidFace scenarioFlags 1 1 256 = Some m'
             /\ invalidFace m' 1 1 = Some 0.
Proof.
  destruct (invalidFace_write_read scenarioFlags 1 1 256)
    as (m' & Hset & Hget & _); simpl; try lia; try reflexivity.
  exists m'. split; [exact Hset | exact Hget].
Defined.
